(** * Anomaly scoring transformers of [iotfunctions/anomaly.py]

    A shallow embedding of the three scoring transformers
    ([NoDataAnomalyScore], [SpectralAnomalyScore], [KMeansAnomalyScore]),
    of the helper [custom_resampler] and of the scaffold class
    [ASAnomalyHandler], together with the pandas / numpy / scipy operations
    they call, and the properties of the specification checked against them.

    Conventions.
    - Timestamps and time deltas are integers, in nanoseconds (pandas'
      [datetime64[ns]] and [timedelta64[ns]]).
    - A floating point number is an exact rational or NaN; rounding is not
      modelled, and an operation that IEEE arithmetic sends to an infinity
      (division by zero) yields NaN here.
    - A DataFrame is a list of rows in table order; a row carries its
      (entity, timestamp) key and a finite map from column names to values.
    - DataFrames live in a store of objects: [df.copy()] allocates, item
      assignment mutates the object it is applied to. *)

From Stdlib Require Import ZArith QArith Qcanon Qcabs String Lia.
From stdpp Require Import base option numbers gmap strings sorting list.

Open Scope Z_scope.

(** ** Python exceptions and the error monad *)

Inductive pyexc : Type :=
  | KeyError (key : string)
  | ValueError (msg : string)
  | AttributeError (attr : string)
  | NameError (name : string)
  | MergeError (msg : string)
  | LibraryError (msg : string).

Definition result (A : Type) : Type := pyexc + A.

Definition raise {A : Type} (e : pyexc) : result A := inl e.

#[global] Instance result_ret : MRet result := fun A x => inr x.
#[global] Instance result_bind : MBind result := fun A B f m =>
  match m with
  | inl e => inl e
  | inr x => f x
  end.
#[global] Instance result_fmap : FMap result := fun A B f m =>
  match m with
  | inl e => inl e
  | inr x => inr (f x)
  end.

Definition is_ok {A : Type} (m : result A) : Prop := ∃ x, m = inr x.

(** ** Floating point values: exact rationals with NaN *)

Abbreviation float := (option Qc).

Definition NaN : float := None.
Definition fl (z : Z) : float := Some (Qc_of_Z z).
Definition fq (n : Z) (d : positive) : float := Some (Q2Qc (n # d)).

Definition float_lift2 (f : Qc → Qc → Qc) (a b : float) : float :=
  match a, b with
  | Some x, Some y => Some (f x y)
  | _, _ => None
  end.

Definition fadd : float → float → float := float_lift2 Qcplus.
Definition fsub : float → float → float := float_lift2 Qcminus.
Definition fmul : float → float → float := float_lift2 Qcmult.
Definition fdiv (a b : float) : float :=
  match a, b with
  | Some x, Some y => if decide (y = 0%Qc) then None else Some (x / y)%Qc
  | _, _ => None
  end.
Definition fabs (a : float) : float := Qcabs <$> a.

(** Comparisons: every comparison with NaN is false. *)
Definition fgtb (a b : float) : bool :=
  match a, b with
  | Some x, Some y => bool_decide (y < x)%Qc
  | _, _ => false
  end.
Definition fltb (a b : float) : bool := fgtb b a.
Definition fleb (a b : float) : bool :=
  match a, b with
  | Some x, Some y => bool_decide (x ≤ y)%Qc
  | _, _ => false
  end.
Definition feqb (a b : float) : bool :=
  match a, b with
  | Some x, Some y => bool_decide (x = y)
  | _, _ => false
  end.

Definition isna (a : float) : bool :=
  match a with
  | None => true
  | Some _ => false
  end.

(** [Series.fillna(v)] on one value. *)
Definition fillna (v : float) (a : float) : float := if isna a then v else a.

(** [DataFrame.where(cond, other)] on one value with [cond = isna]. *)
Definition where_isna (other : float) (a : float) : float :=
  if isna a then a else other.

Definition fsum (l : list float) : float := foldl fadd (fl 0) l.

(** ** Tables *)

Abbreviation entity := string (only parsing).
Abbreviation timestamp := Z (only parsing).

Record row : Type := Row {
  r_entity : entity;
  r_ts : timestamp;
  r_cols : gmap string float
}.

Abbreviation table := (list row).

(** An entity slice: the entity level moved out of the index
    ([reset_index(level=[0])]), rows keyed by timestamp only. *)
Abbreviation srow := (Z * gmap string (option Qc))%type.
Abbreviation slice := (list (Z * gmap string (option Qc))).

Definition r_key (r : row) : entity * timestamp := (r_entity r, r_ts r).

Definition set_col (c : string) (v : float) (r : row) : row :=
  Row (r_entity r) (r_ts r) (<[c := v]> (r_cols r)).

(** [df[c] = v] with a scalar [v]. *)
Definition setitem_scalar (c : string) (v : float) (t : table) : table :=
  set_col c v <$> t.

(** [df.loc[[e]]]: the rows of entity [e], in table order. *)
Definition loc_entity (e : entity) (t : table) : table :=
  filter (λ r, r_entity r = e) t.

(** [dropna(how='all')]: drop the rows whose every column is missing. *)
Definition row_all_na (r : row) : Prop :=
  map_Forall (λ _ v, v = NaN) (r_cols r).

#[global] Instance row_all_na_dec r : Decision (row_all_na r).
Proof. unfold row_all_na. apply _. Defined.

Definition dropna_all (t : table) : table :=
  filter (λ r, ¬ row_all_na r) t.

Definition ts_le (a b : srow) : Prop := a.1 ≤ b.1.

#[global] Instance ts_le_dec a b : Decision (ts_le a b).
Proof. unfold ts_le. apply _. Defined.

(** [reset_index(level=[0]).sort_index()]. *)
Definition reset_index_sort (t : table) : slice :=
  merge_sort ts_le ((λ r, (r_ts r, r_cols r)) <$> t).

Definition s_index (s : slice) : list timestamp := fst <$> s.

(** The columns of a frame are those of its rows. *)
Definition columns (s : slice) : gset string :=
  match s with
  | r :: _ => dom r.2
  | [] => ∅
  end.

(** [s[[c]].to_numpy().reshape(-1,)]; a missing column is a [KeyError]. *)
Fixpoint getcol (c : string) (s : slice) : result (list float) :=
  match s with
  | [] => mret []
  | r :: s' =>
      match r.2 !! c with
      | None => raise (KeyError c)
      | Some v => vs ← getcol c s'; mret (v :: vs)
      end
  end.

(** [df.loc[idx[e, :], c] = values]: positional assignment of an array to
    the rows of [e] in table order; the lengths must agree. *)
Fixpoint loc_setitem (e : entity) (c : string) (vs : list float) (t : table)
  : result table :=
  match t with
  | [] =>
      match vs with
      | [] => mret []
      | _ :: _ => raise (ValueError "shape mismatch")
      end
  | r :: t' =>
      if decide (r_entity r = e) then
        match vs with
        | [] => raise (ValueError "shape mismatch")
        | v :: vs' => t'' ← loc_setitem e c vs' t'; mret (set_col c v r :: t'')
        end
      else t'' ← loc_setitem e c vs t'; mret (r :: t'')
  end.

(** [np.unique(df.index.levels[0])]: the entity identifiers, sorted, without
    repetition.  The levels are taken to be the identifiers present. *)
Definition str_le (a b : string) : Prop := String.leb a b = true.

#[global] Instance str_le_dec a b : Decision (str_le a b).
Proof. unfold str_le. apply _. Defined.

Definition np_unique (l : list entity) : list entity :=
  merge_sort str_le (remove_dups l).

Definition entities_of (t : table) : list entity := np_unique (r_entity <$> t).

(** ** Sampling normalizer *)

(** [index.to_series().diff()] without its leading NaT. *)
Fixpoint diff (l : list Z) : list Z :=
  match l with
  | a :: (b :: _) as l' => (b - a) :: diff l'
  | _ => []
  end.

(** [.min()] and [.mean()] of a timedelta series skip NaT; both are NaT
    ([None]) when no difference exists.  The mean is truncated to whole
    nanoseconds. *)
Definition td_min (ds : list Z) : option Z :=
  match ds with
  | [] => None
  | d :: ds' => Some (foldr Z.min d ds')
  end.

Definition td_sum (ds : list Z) : Z := foldr Z.add 0 ds.

Definition td_mean (ds : list Z) : option Z :=
  match ds with
  | [] => None
  | _ :: _ => Some (Z.quot (td_sum ds) (Z.of_nat (length ds)))
  end.

Definition five_seconds : Z := 5000000000.

(** Lines 170-172, 312-314, 445-447. *)
Definition min_delta (idx : list timestamp) : Z :=
  match td_min (diff idx) with
  | Some d => if d =? 0 then five_seconds else d
  | None => five_seconds
  end.

(** Lines 175-177. *)
Definition mean_delta (idx : list timestamp) : Z :=
  let mindelta := min_delta idx in
  match td_mean (diff idx) with
  | Some d => if d =? 0 then mindelta else d
  | None => mindelta
  end.

(** ** List scans *)

(** The longest prefix whose elements all satisfy [P]. *)
Fixpoint take_while {A : Type} (P : A → Prop) `{!∀ x, Decision (P x)}
    (l : list A) : list A :=
  match l with
  | [] => []
  | x :: l' => if decide (P x) then x :: take_while P l' else []
  end.

(** ** Gap imputer, interpolation mode *)

(** First valid sample at or after the head of a series. *)
Fixpoint next_valid (pts : list (timestamp * float)) : option (timestamp * Qc) :=
  match pts with
  | [] => None
  | (x, Some y) :: _ => Some (x, y)
  | (_, None) :: rest => next_valid rest
  end.

(** [interpolate(method='time')] on one column: a missing value between two
    valid samples is interpolated linearly in time ([np.interp]); missing
    values after the last valid sample repeat it; missing values before the
    first valid sample stay missing (the default direction is forward). *)
Fixpoint interpolate_from (prev : option (timestamp * Qc))
    (pts : list (timestamp * float)) : list float :=
  match pts with
  | [] => []
  | (x, Some y) :: rest => Some y :: interpolate_from (Some (x, y)) rest
  | (x, None) :: rest =>
      match prev with
      | None => NaN
      | Some (x0, y0) =>
          match next_valid rest with
          | None => Some y0
          | Some (x1, y1) =>
              let slope := fdiv (Some (y1 - y0)%Qc) (fl (x1 - x0)) in
              fadd (fmul slope (fl (x - x0))) (Some y0)
          end
      end :: interpolate_from prev rest
  end.

Definition interpolate_time (idx : list timestamp) (ys : list float) : list float :=
  interpolate_from None (zip idx ys).

(** ** Gap imputer, presence-grid mode *)

(** Lines 48-51. *)
Definition custom_resampler (values : list float) : float :=
  match values with
  | v :: _ => v
  | [] => NaN
  end.

Definition day_ns : Z := 86400000000000.

(** [Timestamp.normalize()]: midnight of the same day. *)
Definition normalize (t : timestamp) : timestamp := (t `div` day_ns) * day_ns.

(** Edges of the resampling grid of period [freq] (bins closed on the left,
    anchored at the start of the first day): the first edge is at or before
    [first], the last edge is after [last]. *)
Definition resample_first_edge (first freq : Z) : Z :=
  let foffset := (first - normalize first) `mod` freq in
  if 0 <? foffset then first - foffset else first.

Definition resample_last_edge (first last freq : Z) : Z :=
  let loffset := (last - normalize first) `mod` freq in
  if 0 <? loffset then last + (freq - loffset) else last + freq.

Definition resample_nbins (first last freq : Z) : nat :=
  Z.to_nat ((resample_last_edge first last freq - resample_first_edge first freq)
            `div` freq).

(** Left edges of the buckets; they label the resampled rows. *)
Definition resample_labels (first last freq : Z) : list timestamp :=
  (λ k : nat, resample_first_edge first freq + Z.of_nat k * freq)
    <$> seq 0 (resample_nbins first last freq).

(** Bucketing of a time-sorted slice by one scan: each bucket takes the
    leading rows that lie before its right edge. *)
Fixpoint bin_rows (right_edges : list Z) (s : slice) : list slice :=
  match right_edges with
  | [] => []
  | e :: es =>
      let b := take_while (λ r, r.1 < e) s in
      b :: bin_rows es (drop (length b) s)
  end.

(** [resample(freq).apply(custom_resampler)]: per bucket and per column, the
    first value of the bucket, or NaN for an empty bucket. *)
Definition resample_bucket (cols : gset string) (b : slice) : gmap string float :=
  set_to_map (λ c, (c, custom_resampler (omap (λ r : srow, r.2 !! c) b))) cols.

Definition resample_apply (s : slice) (freq : Z) : slice :=
  match s with
  | [] => []
  | r0 :: _ =>
      let first := r0.1 in
      let last := default first (list.last (s_index s)) in
      let labels := resample_labels first last freq in
      zip labels (resample_bucket (columns s)
                    <$> bin_rows ((λ l, l + freq) <$> labels) s)
  end.

(** Line 183: [upsampled_na.where(upsampled_na.isna(), 0).fillna(1)]. *)
Definition gap_frame (up : slice) : slice :=
  (λ r : srow, (r.1, (λ v, fillna (fl 1) (where_isna (fl 0) v)) <$> r.2)) <$> up.

(** ** External numeric libraries *)

Record spectrogram_result : Type := Spectrogram {
  sg_freqs : list float;
  sg_times : list float;
  sg_Sx : list (list float)  (* one row per frequency, one column per segment *)
}.

(** The library routines the transformers call and this repository does not
    define.  [interp1d_minval] is the least number of points scipy's linear
    [interp1d] accepts (2 in older releases, 1 in later ones). *)
Class SciLibs : Type := {
  signal_spectrogram :
    list float → Z → Z → Z → result spectrogram_result;
  np_log10 : float → float;
  np_sqrt : float → float;
  cblof_decision_scores : nat → list (list float) → result (list float);
  interp1d_minval : nat
}.

(** ** Window parameters *)

(** [np.maximum(windowsize, 1)]. *)
Definition init_windowsize (windowsize : Z) : Z := Z.max windowsize 1.

(** Lines 139-142. *)
Definition init_windowoverlap (w : Z) : Z :=
  if w =? 1 then 0 else w - Z.max (w `div` 12) 1.

Record config : Type := Config {
  input_item : string;
  windowsize : Z;        (* after [init_windowsize] *)
  output_item : string
}.

Definition make_config (input : string) (ws : Z) (output : string) : config :=
  Config input (init_windowsize ws) output.

(** ** numpy helpers *)

(** [np.arange(0, n, 1)]. *)
Definition np_arange (n : nat) : list float :=
  (λ i : nat, fl (Z.of_nat i)) <$> seq 0 n.

(** [np.linspace(start, stop, num)] with the end point included. *)
Definition np_linspace (start stop : float) (num : nat) : list float :=
  let div := (Z.of_nat num - 1)%Z in
  let delta := fsub stop start in
  let step := fdiv delta (fl div) in
  let y := (λ i : nat,
              fadd (if 0 <? div then fmul (fl (Z.of_nat i)) step
                    else fmul (fl (Z.of_nat i)) delta) start) <$> seq 0 num in
  if 1 <? Z.of_nat num then <[pred num := stop]> y else y.

Definition np_mean (l : list float) : float :=
  fdiv (fsum l) (fl (Z.of_nat (length l))).

(** [m.T] for a rectangular matrix given by its rows. *)
Definition transpose (m : list (list float)) : list (list float) :=
  let ncols := match m with r :: _ => length r | [] => O end in
  (λ j : nat, (λ r : list float, default NaN (r !! j)) <$> m) <$> seq 0 ncols.

(** [np.dot(m, v)] of a matrix and a vector. *)
Definition np_dot (m : list (list float)) (v : list float) : result (list float) :=
  if bool_decide (Forall (λ r, length r = length v) m)
  then mret ((λ r, fsum (zip_with fmul r v)) <$> m)
  else raise (ValueError "shapes not aligned").

(** [skimage.util.view_as_windows(a, window_shape=(w,), step=step)]. *)
Definition view_as_windows (a : list float) (w step : nat)
  : result (list (list float)) :=
  if bool_decide (length a < w)%nat
  then raise (ValueError "window_shape is too large")
  else mret ((λ i : nat, take w (drop (i * step) a))
               <$> seq 0 ((length a - w) `div` step + 1)%nat).

(** ** Score stretcher: scipy's linear [interp1d] with extrapolation *)

(** The order of [np.argsort]: NaN sorts last. *)
Definition xy_le (p q : float * float) : Prop :=
  match p.1, q.1 with
  | Some x, Some y => (x ≤ y)%Qc
  | _, None => True
  | None, Some _ => False
  end.

#[global] Instance xy_le_dec p q : Decision (xy_le p q).
Proof. unfold xy_le. destruct p.1, q.1; apply _. Defined.

(** [np.searchsorted(xs, v)], side left: the number of leading points
    below [v]. *)
Definition searchsorted (xs : list float) (v : float) : nat :=
  length (take_while (λ x, fltb x v = true) xs).

(** [np.clip]. *)
Definition clip (i lo hi : Z) : Z := Z.min (Z.max i lo) hi.

(** Python indexing: a negative index counts from the end. *)
Definition py_index (l : list float) (i : Z) : float :=
  let j := if i <? 0 then i + Z.of_nat (length l) else i in
  default NaN (l !! Z.to_nat j).

(** [interp1d._call_linear] at one new point. *)
Definition interp1d_call (xs ys : list float) (x_new : float) : float :=
  let i := clip (Z.of_nat (searchsorted xs x_new)) 1 (Z.of_nat (length xs) - 1) in
  let lo := i - 1 in
  let hi := i in
  let x_lo := py_index xs lo in
  let x_hi := py_index xs hi in
  let y_lo := py_index ys lo in
  let y_hi := py_index ys hi in
  let slope := fdiv (fsub y_hi y_lo) (fsub x_hi x_lo) in
  fadd (fmul slope (fsub x_new x_lo)) y_lo.

(** ** Realignment: [pd.merge_asof(..., direction='nearest', tolerance=tol)] *)

(** Last right position whose key is at or before [t], if within [tol]. *)
Definition asof_backward (rk : list timestamp) (tol t : Z) : option nat :=
  match length (take_while (λ r, r ≤ t) rk) with
  | O => None
  | S j =>
      match rk !! j with
      | Some r => if decide (t - r ≤ tol) then Some j else None
      | None => None
      end
  end.

(** First right position whose key is at or after [t], if within [tol]. *)
Definition asof_forward (rk : list timestamp) (tol t : Z) : option nat :=
  let j := length (take_while (λ r, r < t) rk) in
  match rk !! j with
  | Some r => if decide (r - t ≤ tol) then Some j else None
  | None => None
  end.

(** The nearer of the two; the backward match wins a tie. *)
Definition asof_nearest (rk : list timestamp) (tol t : Z) : option nat :=
  match asof_backward rk tol t, asof_forward rk tol t with
  | Some b, Some f =>
      let bdiff := t - default 0 (rk !! b) in
      let fdiff := default 0 (rk !! f) - t in
      if bdiff <=? fdiff then Some b else Some f
  | Some b, None => Some b
  | None, f => f
  end.

Definition suffix_x (name : string) : string := name +:+ "_x".
Definition suffix_y (name : string) : string := name +:+ "_y".

(** Renaming of a left column that overlaps the right one. *)
Definition rename_col (old new : string) (m : gmap string float)
  : gmap string float :=
  match m !! old with
  | Some v => <[new := v]> (delete old m)
  | None => m
  end.

(** The left join of the frame [left] with the series [name] of index [rk]
    and values [rv]: one output row per left row, in left order; the matched
    value, or NaN where nothing lies within the tolerance.  When [left] has
    a column [name] already, the two are suffixed [_x] and [_y]. *)
Definition merge_asof_nearest (left : slice) (name : string)
    (rk : list timestamp) (rv : list float) (tol : Z) : result slice :=
  if bool_decide (¬ Sorted Z.le (s_index left))
  then raise (ValueError "left keys must be sorted")
  else if bool_decide (¬ Sorted Z.le rk)
  then raise (ValueError "right keys must be sorted")
  else
    let overlap := bool_decide (name ∈ columns left) in
    if overlap && (bool_decide (suffix_x name ∈ columns left)
                   || bool_decide (suffix_y name ∈ columns left))
    then raise (MergeError "suffixes cause duplicate columns")
    else mret ((λ r : srow,
                  let v := match asof_nearest rk tol r.1 with
                           | Some j => default NaN (rv !! j)
                           | None => NaN
                           end in
                  (r.1, if overlap
                        then <[suffix_y name := v]> (rename_col name (suffix_x name) r.2)
                        else <[name := v]> r.2)) <$> left).

(** [dfe[name] = values]: the new column must have the length of the frame;
    the result is kept as the series (index, values). *)
Definition series_of_column (dfe : slice) (values : list float)
  : result (list timestamp * list float) :=
  if bool_decide (length values = length dfe)
  then mret (s_index dfe, values)
  else raise (ValueError "Length of values does not match length of index").

(** ** Object store *)

Abbreviation loc := positive (only parsing).
Abbreviation store := (gmap positive (list row)).

Definition M (A : Type) : Type := store → result (A * store).

#[global] Instance M_ret : MRet M := fun A x σ => inr (x, σ).
#[global] Instance M_bind : MBind M := fun A B f m σ =>
  match m σ with
  | inl e => inl e
  | inr (x, σ') => f x σ'
  end.

Definition lift {A : Type} (m : result A) : M A := fun σ =>
  match m with
  | inl e => inl e
  | inr x => inr (x, σ)
  end.

Definition dangling {A : Type} : result A :=
  raise (LibraryError "dangling reference").

(** Reading the frame an object reference points to. *)
Definition df_read (l : loc) : M table := fun σ =>
  match σ !! l with
  | Some t => inr (t, σ)
  | None => dangling
  end.

(** [df.copy()]: a new object with the same contents. *)
Definition df_copy (l : loc) : M loc := fun σ =>
  match σ !! l with
  | Some t => let l' := fresh (dom σ) in inr (l', <[l' := t]> σ)
  | None => dangling
  end.

(** [df[c] = v], in place. *)
Definition df_setitem_scalar (l : loc) (c : string) (v : float) : M unit :=
  fun σ =>
  match σ !! l with
  | Some t => inr (tt, <[l := setitem_scalar c v t]> σ)
  | None => dangling
  end.

(** [df.loc[idx[e, :], c] = vs], in place. *)
Definition df_loc_setitem (l : loc) (e : entity) (c : string) (vs : list float)
  : M unit := fun σ =>
  match σ !! l with
  | Some t =>
      match loc_setitem e c vs t with
      | inl err => inl err
      | inr t' => inr (tt, <[l := t']> σ)
      end
  | None => dangling
  end.

(** ** The three transformers *)

Section Transformers.
Context `{SciLibs}.

(** *** Feature extractors *)

(** Lines 203-205 and 337-339: the masked frequency axis. *)
Definition cut_low_freqs (w : Z) (freqsTS : list float) : list float :=
  let freqsTSb :=
    (λ f, if fgtb f (fdiv (fl 2) (fl w)) then 1 else 0) <$> freqsTS in
  let freqsTS' := zip_with (λ f b, fmul f (fl b)) freqsTS freqsTSb in
  (λ f, if feqb f (fl 0) then fdiv (fl 1) (fl w) else f) <$> freqsTS'.

(** [a.std(ddof=ddof)]. *)
Definition np_std (ddof : Z) (l : list float) : float :=
  let m := np_mean l in
  let sq := (λ x, let d := fabs (fsub x m) in fmul d d) <$> l in
  np_sqrt (fdiv (fsum sq) (fl (Z.of_nat (length l) - ddof))).

(** Lines 211 and 345. *)
Definition zscore (ETS : list float) : list float :=
  let m := np_mean ETS in
  let s := np_std 0 ETS in
  (λ e, fdiv (fsub e m) s) <$> ETS.

(** Lines 198-211: the time axis and the z-score of the linear energy. *)
Definition NoData_features (w : Z) (temperature : list float)
  : result (list float * list float) :=
  sg ← signal_spectrogram temperature 1 w (init_windowoverlap w);
  let freqsTS := cut_low_freqs w (sg_freqs sg) in
  ETS ← np_dot (transpose (sg_Sx sg)) freqsTS;
  mret (sg_times sg, zscore ETS).

(** Lines 332-345: the time axis and the z-score of the log energy. *)
Definition Spectral_features (w : Z) (temperature : list float)
  : result (list float * list float) :=
  sg ← signal_spectrogram temperature 1 w (init_windowoverlap w);
  let freqsTS := cut_low_freqs w (sg_freqs sg) in
  E ← np_dot (transpose (sg_Sx sg)) freqsTS;
  let ETS := np_log10 <$> E in
  mret (sg_times sg, zscore ETS).

(** Line 481. *)
Definition KMeans_centers (w : Z) (size : nat) : list float :=
  np_linspace (fl (w `div` 2)) (fl (Z.of_nat size - w `div` 2 + 1))
              (Z.to_nat (Z.of_nat size - w + 1)).

(** Lines 466-481: window centers and the per-window decision scores. *)
Definition KMeans_features (w : Z) (temperature : list float)
  : result (list float * list float) :=
  slices ← view_as_windows temperature (Z.to_nat w) 1;
  let n_clus := if 1 <? w then 40%nat else 20%nat in
  pred_score ← cblof_decision_scores n_clus slices;
  mret (KMeans_centers w (length temperature), pred_score).

(** *** Score stretcher *)

Definition interp1d (x y : list float) : result (float → float) :=
  if bool_decide (length x ≠ length y)
  then raise (ValueError "x and y arrays must be equal in length")
  else if bool_decide (length x < interp1d_minval)%nat
  then raise (ValueError "x and y arrays must have more entries")
  else
    let p := merge_sort xy_le (zip x y) in
    mret (interp1d_call p.*1 p.*2).

(** Lines 216-217, 350-351, 486-489. *)
Definition stretch (timesTS scores : list float) (size : nat)
  : result (list float) :=
  Linear ← interp1d timesTS scores;
  mret (Linear <$> np_arange size).

(** *** Realignment and selection of the merged column *)

(** Lines 227-233, 361-367, 498-504. *)
Definition select_score (cfg : config) (merged : slice) : result (list float) :=
  if bool_decide (suffix_y (output_item cfg) ∈ columns merged)
  then getcol (suffix_y (output_item cfg)) merged
  else if bool_decide (output_item cfg ∈ columns merged)
  then getcol (output_item cfg) merged
  else getcol (input_item cfg) merged.

(** Lines 219-233, 353-367, 491-504: the stretched score becomes the
    output column of [dfe], is joined onto [dfe_orig], and the merged
    column is read back. *)
Definition realign (cfg : config) (dfe_orig dfe : slice) (scoreI : list float)
    (mindelta : Z) : result (list float) :=
  '(rk, rv) ← series_of_column dfe scoreI;
  merged ← merge_asof_nearest dfe_orig (output_item cfg) rk rv mindelta;
  select_score cfg merged.

(** *** One iteration of the entity loop *)

(** The imputed signal of an entity, interpolation mode
    (lines 304-323 and 437-457). *)
Definition interpolated_signal (cfg : config) (df_copy : table) (e : entity)
  : result (slice * list float) :=
  let dfe := reset_index_sort (dropna_all (loc_entity e df_copy)) in
  col ← getcol (input_item cfg) dfe;
  mret (dfe, fillna (fl 0) <$> interpolate_time (s_index dfe) col).

(** The gap-presence signal of an entity (lines 162-189). *)
Definition gap_signal (cfg : config) (df_copy : table) (e : entity)
  : result (slice * list float) :=
  let dfe_orig := reset_index_sort (loc_entity e df_copy) in
  let meandelta := mean_delta (s_index dfe_orig) in
  let upsampled_na := resample_apply dfe_orig meandelta in
  let dfe := gap_frame upsampled_na in
  temperature ← getcol (input_item cfg) dfe;
  mret (dfe, temperature).

(** The feature extractor followed by the score stretcher. *)
Definition stretched_score
    (features : Z → list float → result (list float * list float))
    (w : Z) (temperature : list float) : result (list float) :=
  '(timesTS, scores) ← features w temperature;
  stretch timesTS scores (length temperature).

(** The body of the loop, from the signal on: [None] when the entity is
    skipped, otherwise the array assigned to its rows. *)
Definition score_entity
    (features : Z → list float → result (list float * list float))
    (cfg : config) (dfe_orig dfe : slice) (temperature : list float)
  : result (option (list float)) :=
  let mindelta := min_delta (s_index dfe_orig) in
  if bool_decide (windowsize cfg < Z.of_nat (length temperature)) then
    scoreI ← stretched_score features (windowsize cfg) temperature;
    zScoreII ← realign cfg dfe_orig dfe scoreI mindelta;
    mret (Some zScoreII)
  else mret None.

(** Lines 160-237. *)
Definition NoData_entity (cfg : config) (df_copy : table) (e : entity)
  : result (option (list float)) :=
  let dfe_orig := reset_index_sort (loc_entity e df_copy) in
  '(dfe, temperature) ← gap_signal cfg df_copy e;
  score_entity NoData_features cfg dfe_orig dfe temperature.

(** Lines 302-372. *)
Definition Spectral_entity (cfg : config) (df_copy : table) (e : entity)
  : result (option (list float)) :=
  let dfe_orig := reset_index_sort (loc_entity e df_copy) in
  '(dfe, temperature) ← interpolated_signal cfg df_copy e;
  score_entity Spectral_features cfg dfe_orig dfe temperature.

(** Lines 435-508. *)
Definition KMeans_entity (cfg : config) (df_copy : table) (e : entity)
  : result (option (list float)) :=
  let dfe_orig := reset_index_sort (loc_entity e df_copy) in
  '(dfe, temperature) ← interpolated_signal cfg df_copy e;
  score_entity KMeans_features cfg dfe_orig dfe temperature.

(** *** Entity driver *)

Fixpoint entity_loop
    (body : config → table → entity → result (option (list float)))
    (cfg : config) (df_copy : loc) (entities : list entity) : M unit :=
  match entities with
  | [] => mret tt
  | e :: rest =>
      t ← df_read df_copy;
      r ← lift (body cfg t e);
      match r with
      | Some zScoreII => df_loc_setitem df_copy e (output_item cfg) zScoreII
      | None => mret tt
      end;;
      entity_loop body cfg df_copy rest
  end.

(** The common shape of the three [execute] methods: copy the table, read
    the entity identifiers, set the output column to 0 on the copy, run the
    loop on the copy and return it.  [df_copy.sort_index()] returns a new
    frame that is dropped, so it has no effect; [trace_append] belongs to
    the host pipeline. *)
Definition execute_with
    (body : config → table → entity → result (option (list float)))
    (cfg : config) (df : loc) : M loc :=
  dfc ← df_copy df;
  t ← df_read df;
  let entities := entities_of t in
  df_setitem_scalar dfc (output_item cfg) (fl 0);;
  entity_loop body cfg dfc entities;;
  mret dfc.

(** Lines 149-241. *)
Definition NoData_execute : config → loc → M loc := execute_with NoData_entity.
(** Lines 292-378. *)
Definition Spectral_execute : config → loc → M loc := execute_with Spectral_entity.
(** Lines 426-513. *)
Definition KMeans_execute : config → loc → M loc := execute_with KMeans_entity.

End Transformers.

(** ** A concrete instance of the external libraries

    Exact on the inputs it accepts and failing (or NaN) elsewhere: the
    spectrogram is scipy's for one-sample segments without overlap, where
    the Hann window is [[1.]], the only frequency is 0, segment [j] is
    centred at [j + 1/2] and its magnitude is the square of sample [j]; the
    square root and the logarithm are exact on rational squares and on
    integral powers of ten.  The cluster scorer is the degenerate outcome of
    section 4.4 of the specification: every window scores 0, and fitting
    fails when there are fewer windows than clusters. *)

Definition spectrogram_nperseg1 (x : list float) (fs nperseg noverlap : Z)
  : result spectrogram_result :=
  if bool_decide (nperseg = 1 ∧ noverlap = 0 ∧ 0 < fs) then
    mret (Spectrogram
            [fl 0]
            ((λ j : nat, fdiv (fadd (fl (Z.of_nat j)) (fq 1 2)) (fl fs))
               <$> seq 0 (length x))
            [(λ v, fmul v v) <$> x])
  else raise (LibraryError "spectrogram: segment length not modelled").

Definition sqrt_exact (a : float) : float :=
  match a with
  | Some q =>
      let n := Qnum (this q) in
      let d := Z.pos (Qden (this q)) in
      if bool_decide (0 ≤ n ∧ Z.sqrt n * Z.sqrt n = n ∧ Z.sqrt d * Z.sqrt d = d)
      then Some (Q2Qc (Z.sqrt n # Z.to_pos (Z.sqrt d)))
      else NaN
  | None => NaN
  end.

Definition log10_exact (a : float) : float :=
  match a with
  | Some q =>
      let n := Qnum (this q) in
      if bool_decide (Qden (this q) = 1%positive) then
        match list_find (λ k, 10 ^ k = n) (seqZ 0 40) with
        | Some (_, k) => fl k
        | None => NaN
        end
      else NaN
  | None => NaN
  end.

Definition uniform_cblof (n_clusters : nat) (X : list (list float))
  : result (list float) :=
  if bool_decide (length X < n_clusters)%nat
  then raise (ValueError "n_samples should be >= n_clusters")
  else mret ((λ _, fl 0) <$> X).

Definition exact_libs : SciLibs := {|
  signal_spectrogram := spectrogram_nperseg1;
  np_log10 := log10_exact;
  np_sqrt := sqrt_exact;
  cblof_decision_scores := uniform_cblof;
  interp1d_minval := 2
|}.

(** ** The scaffold class [ASAnomalyHandler] (lines 54-124) *)

Module ASAnomalyHandler.

Inductive pyval : Type :=
  | PStr (s : string)
  | PFrame (l : loc)
  | PMethod (name : string)
  | PGlobal (name : string)
  | PNone.

(** The [__dict__] of an instance. *)
Abbreviation instance := (gmap string pyval).

(** Names bound in the class body.  The class has no base but [object],
    which has no attribute [df]. *)
Definition class_namespace : list string :=
  ["__doc__"; "__init__"; "score"]%string.

(** [self.a]: the instance dictionary, then the class. *)
Definition getattr (self : instance) (a : string) : result pyval :=
  match self !! a with
  | Some v => mret v
  | None =>
      if bool_decide (a ∈ class_namespace) then mret (PMethod a)
      else raise (AttributeError a)
  end.

(** Names bound at the top level of [anomaly.py]. *)
Definition module_globals : list string :=
  ["dt"; "time"; "OrderedDict"; "np"; "sp"; "signal"; "energy_distance";
   "ski"; "skiutil"; "CBLOF"; "re"; "pd"; "logging"; "warnings"; "json";
   "Column"; "Integer"; "String"; "Float"; "DateTime"; "Boolean"; "func";
   "BaseTransformer"; "BaseEvent"; "BaseSCDLookup"; "BaseMetadataProvider";
   "BasePreload"; "BaseDatabaseLookup"; "BaseDataSource";
   "BaseDBActivityMerge"; "BaseSimpleAggregator";
   "UISingle"; "UIMultiItem"; "UIFunctionOutSingle"; "UISingleItem";
   "UIFunctionOutMulti"; "UIMulti"; "UIExpression"; "UIText";
   "UIStatusFlag"; "UIParameters";
   "adjust_probabilities"; "reset_df_index";
   "logger"; "PACKAGE_URL"; "_IS_PREINSTALLED";
   "custom_resampler"; "ASAnomalyHandler"; "NoDataAnomalyScore";
   "SpectralAnomalyScore"; "KMeansAnomalyScore"]%string.

(** The built-in functions and constants of Python 3. *)
Definition builtins : list string :=
  ["abs"; "all"; "any"; "ascii"; "bin"; "bool"; "breakpoint"; "bytearray";
   "bytes"; "callable"; "chr"; "classmethod"; "compile"; "complex";
   "delattr"; "dict"; "dir"; "divmod"; "enumerate"; "eval"; "exec";
   "filter"; "float"; "format"; "frozenset"; "getattr"; "globals";
   "hasattr"; "hash"; "help"; "hex"; "id"; "input"; "int"; "isinstance";
   "issubclass"; "iter"; "len"; "list"; "locals"; "map"; "max";
   "memoryview"; "min"; "next"; "object"; "oct"; "open"; "ord"; "pow";
   "print"; "property"; "range"; "repr"; "reversed"; "round"; "set";
   "setattr"; "slice"; "sorted"; "staticmethod"; "str"; "sum"; "super";
   "tuple"; "type"; "vars"; "zip"; "__import__";
   "True"; "False"; "None"; "Ellipsis"; "NotImplemented"]%string.

(** Names assigned in the body of [score], its parameters included: the
    local variables of the function. *)
Definition score_locals : list string :=
  ["self"; "df"; "entity"; "dfe"; "dfe_orig"; "mindelta"; "Size";
   "temperature"; "pred_score"; "stretchFactor"; "timesTS"; "Linear";
   "adaptedScore"; "idx"]%string.

(** Reading a name that is not local to the function: the module's
    globals, then the built-ins, else [NameError]. *)
Definition load_global (name : string) : result pyval :=
  if bool_decide (name ∈ module_globals ++ builtins) then mret (PGlobal name)
  else raise (NameError name).

Section Body.
(** What the statements after the first read do is left open: the rest
    of [__init__] after [self.df] is read (line 60), and the loop of
    [score] once [entities] is read (line 73); the loop receives the
    reader of free names, which it needs for [scorer] (line 94). *)
Variable init_rest :
  pyval → instance → pyval → pyval → pyval → M instance.
Variable score_loop :
  pyval → (string → result pyval) → instance → loc → M loc.

(** Lines 58-67. *)
Definition init (self : instance) (input_item output_item scorer : pyval)
  : M instance :=
  df ← lift (getattr self "df");
  init_rest df self input_item output_item scorer.

(** [ASAnomalyHandler(input_item, output_item, scorer)]: a new instance
    with an empty dictionary, then [__init__]. *)
Definition construct (input_item output_item scorer : pyval) : M instance :=
  init ∅ input_item output_item scorer.

(** Lines 69-124. *)
Definition score (self : instance) (df : loc) : M loc :=
  entities ← lift (load_global "entities");
  score_loop entities load_global self df.
End Body.

End ASAnomalyHandler.

(** ** Definitions that follow the words of the specification *)

Section SpecWords.
Context `{SciLibs}.

(** Section 4.3, step 2: bins at or below [2/windowsize] are zeroed, and
    a resulting zero frequency value is replaced by [1/windowsize]. *)
Definition spec_masked_axis (w : Z) (freqs : list float) : list float :=
  (λ f,
     let zeroed := if fleb f (fdiv (fl 2) (fl w)) then fl 0 else f in
     if feqb zeroed (fl 0) then fdiv (fl 1) (fl w) else zeroed) <$> freqs.

(** Section 4.3, step 3: the energy of segment [j] is the dot product of
    its magnitude column with the masked frequency axis. *)
Definition spec_column (Sx : list (list float)) (j : nat) : list float :=
  (λ r : list float, default NaN (r !! j)) <$> Sx.

Definition spec_energy (Sx : list (list float)) (axis : list float) (j : nat)
  : float :=
  fsum (zip_with fmul (spec_column Sx j) axis).




(** Section 4.2: the gap indicator of a bucket. *)
Definition spec_bucket (s : slice) (label freq : Z) : slice :=
  filter (λ r : srow, label ≤ r.1 < label + freq) s.

End SpecWords.

(** ** The entity loop as a function on tables *)

Fixpoint entity_fold
    (body : config → table → entity → result (option (list float)))
    (cfg : config) (entities : list entity) (t : table) : result table :=
  match entities with
  | [] => inr t
  | e :: rest =>
      match body cfg t e with
      | inl err => inl err
      | inr None => entity_fold body cfg rest t
      | inr (Some z) =>
          match loc_setitem e (output_item cfg) z t with
          | inl err => inl err
          | inr t' => entity_fold body cfg rest t'
          end
      end
  end.

(** ** The three strategies under one name *)

Inductive extractor : Type := GapPresence | RawSpectral | Clustering.

Definition features_of `{SciLibs} (x : extractor)
  : Z → list float → result (list float * list float) :=
  match x with
  | GapPresence => NoData_features
  | RawSpectral => Spectral_features
  | Clustering => KMeans_features
  end.

Definition signal_of (x : extractor)
  : config → table → entity → result (slice * list float) :=
  match x with
  | GapPresence => gap_signal
  | RawSpectral => interpolated_signal
  | Clustering => interpolated_signal
  end.

Definition body_of `{SciLibs} (x : extractor)
  : config → table → entity → result (option (list float)) :=
  match x with
  | GapPresence => NoData_entity
  | RawSpectral => Spectral_entity
  | Clustering => KMeans_entity
  end.

Definition execute_of `{SciLibs} (x : extractor) : config → loc → M loc :=
  match x with
  | GapPresence => NoData_execute
  | RawSpectral => Spectral_execute
  | Clustering => KMeans_execute
  end.

(** ** Vocabulary of the statements *)

(** The value a left row at time [ts] receives from the joined series. *)
Definition merged_value (rk : list timestamp) (rv : list float) (tol ts : Z)
  : float :=
  match asof_nearest rk tol ts with
  | Some j => default NaN (rv !! j)
  | None => NaN
  end.

(** A row after assignments to column [c] of the rows of the entities [es]. *)
Definition row_upd (es : list entity) (c : string) (r r' : row) : Prop :=
  r' = r ∨ (r_entity r ∈ es ∧ ∃ v, r' = set_col c v r).

(** The (entity, timestamp) keys of a table with the values of column [c]. *)
Definition scores_by_key (c : string) (t : table)
  : list (entity * timestamp * option float) :=
  (λ r, (r_entity r, r_ts r, r_cols r !! c)) <$> t.

(** Running [execute] on a store that holds the caller's table only, and
    reading the returned frame. *)
Definition run (exec : config → loc → M loc) (cfg : config) (T : table)
  : result table :=
  match exec cfg 1%positive {[ 1%positive := T ]} with
  | inl err => inl err
  | inr (l, σ) =>
      match σ !! l with
      | Some T' => inr T'
      | None => dangling
      end
  end.

#[global] Instance pyexc_eq_dec : EqDecision pyexc.
Proof. solve_decision. Defined.

#[global] Instance result_eq_dec {A : Type} `{EqDecision A} : EqDecision (result A).
Proof. unfold result. apply _. Defined.

#[global] Instance row_eq_dec : EqDecision row.
Proof. solve_decision. Defined.

#[global] Instance spectrogram_result_eq_dec : EqDecision spectrogram_result.
Proof. solve_decision. Defined.

(** ** Example tables *)

Definition seconds (n : Z) : Z := n * 1000000000.

Definition reading (e : entity) (t : Z) (v : float) : row :=
  Row e (seconds t) {[ "temp"%string := v ]}.

(** One entity sampled at 0 s, 2 s, 3 s and 13 s: the smallest step is 1 s,
    the mean step 4.333333333 s. *)
Definition gap_table_sorted : table :=
  [reading "E" 0 (fl 7); reading "E" 2 (fl 7); reading "E" 3 (fl 9);
   reading "E" 13 (fl 4)].

(** The same records with the latest one first. *)
Definition gap_table_unsorted : table :=
  [reading "E" 13 (fl 4); reading "E" 0 (fl 7); reading "E" 2 (fl 7);
   reading "E" 3 (fl 9)].

(** One entity whose first record carries no value. *)
Definition missing_first_table : table :=
  [reading "E" 0 NaN; reading "E" 1 (fl 3); reading "E" 10 (fl 1)].

(** Two entities, each with two records. *)
Definition short_table : table :=
  [reading "A" 0 (fl 1); reading "B" 0 (fl 2); reading "A" 1 (fl 3);
   reading "B" 5 (fl 4)].

Definition gap_config : config := make_config "temp" 1 "score".
Definition wide_config : config := make_config "temp" 12 "score".


(** ** Vocabulary of the further properties *)

(** The (time, value) samples of column [c] of a slice; a cell the column
    does not have reads as NaN. *)
Definition samples (c : string) (s : slice) : list (timestamp * float) :=
  (λ r : srow, (r.1, default NaN (r.2 !! c))) <$> s.

(** Last valid sample of a series, [prev] when it has none: the counterpart
    of [next_valid]. *)
Fixpoint last_valid (prev : option (timestamp * Qc))
    (pts : list (timestamp * float)) : option (timestamp * Qc) :=
  match pts with
  | [] => prev
  | (x, Some y) :: rest => last_valid (Some (x, y)) rest
  | (_, None) :: rest => last_valid prev rest
  end.

(** One entity whose two values are powers of ten, one second apart. *)
Definition decade_table : table :=
  [reading "E" 0 (fl 1); reading "E" 1 (fl 10)].


(** ** The stretching step of [ASAnomalyHandler.score] (lines 96-106) *)

Section HandlerScore.
Context `{SciLibs}.

(** Line 96. *)
Definition stretchFactor (temperature pred_score : list float) : Z :=
  Z.of_nat (length temperature) - Z.of_nat (length pred_score).

(** Line 100; [np.linspace] refuses a negative number of points. *)
Definition handler_timesTS (temperature pred_score : list float)
  : result (list float) :=
  let sf := stretchFactor temperature pred_score in
  let size := Z.of_nat (length temperature) in
  let num := size - sf `div` 2 * 2 + 1 in
  if num <? 0 then raise (ValueError "Number of samples must be non-negative")
  else mret (np_linspace (fl (sf `div` 2)) (fl (size - sf `div` 2 + 1))
               (Z.to_nat num)).

(** Lines 105-106. *)
Definition handler_stretch (temperature pred_score : list float)
  : result (list float) :=
  timesTS ← handler_timesTS temperature pred_score;
  stretch timesTS pred_score (length temperature).

End HandlerScore.

(** One entity sampled every second, no value missing. *)
Definition regular_table : table :=
  [reading "E" 0 (fl 7); reading "E" 1 (fl 7); reading "E" 2 (fl 9);
   reading "E" 3 (fl 4)].

(** * Properties *)

(** ** Sampling normalizer *)

#[global] Instance ts_le_total : Total ts_le.
Proof. intros a b. unfold ts_le. lia. Qed.

#[global] Instance ts_le_trans : Transitive ts_le.
Proof. intros a b c. unfold ts_le. lia. Qed.

Lemma reset_index_sort_sorted (t : table) :
  Sorted Z.le (s_index (reset_index_sort t)).
Proof.
  unfold s_index, reset_index_sort.
  apply Sorted_fmap with (R1 := ts_le); [intros x y Hxy; exact Hxy|].
  apply (Sorted_merge_sort ts_le).
Qed.

Lemma diff_nonneg (l : list Z) :
  Sorted Z.le l → Forall (λ d, 0 ≤ d) (diff l).
Proof.
  induction 1 as [|a l Hs IH Hhd]; [constructor|].
  destruct l as [|b l]; simpl; [constructor|].
  constructor; [|exact IH].
  inversion Hhd; subst. lia.
Qed.

Lemma foldr_min_le (d : Z) (ds : list Z) :
  foldr Z.min d ds ≤ d ∧ Forall (λ x, foldr Z.min d ds ≤ x) ds.
Proof.
  induction ds as [|x ds [IH1 IH2]]; simpl; [split; [lia|constructor]|].
  split; [lia|]. constructor; [lia|].
  eapply Forall_impl; [exact IH2|]. intros y Hy. simpl in Hy. lia.
Qed.

Lemma foldr_min_elem (d : Z) (ds : list Z) :
  foldr Z.min d ds ∈ d :: ds.
Proof.
  induction ds as [|x ds IH]; simpl; [left|].
  destruct (Z.min_spec x (foldr Z.min d ds)) as [[_ ->]|[_ ->]].
  - right; left.
  - apply elem_of_cons in IH as [->|IH]; [left|right; right; exact IH].
Qed.

Lemma td_min_spec (ds : list Z) (d : Z) :
  td_min ds = Some d → d ∈ ds ∧ Forall (λ x, d ≤ x) ds.
Proof.
  destruct ds as [|d0 ds]; simpl; [discriminate|].
  intros [= <-]. split; [apply foldr_min_elem|].
  destruct (foldr_min_le d0 ds) as [H1 H2]. constructor; assumption.
Qed.


Lemma td_sum_nonneg (ds : list Z) :
  Forall (λ d, 0 ≤ d) ds → 0 ≤ td_sum ds.
Proof.
  induction 1 as [|d ds Hd _ IH]; unfold td_sum in *; simpl; lia.
Qed.




(** ** Writing a column back *)

Lemma set_col_set_col (c : string) (v v' : float) (r : row) :
  set_col c v' (set_col c v r) = set_col c v' r.
Proof. unfold set_col. simpl. by rewrite insert_insert_eq. Qed.

Lemma row_upd_trans (es es' : list entity) (c : string) (r1 r2 r3 : row) :
  row_upd es c r1 r2 → row_upd es' c r2 r3 → row_upd (es ++ es') c r1 r3.
Proof.
  intros [->|[He [v ->]]] [->|[He' [v' ->]]].
  - by left.
  - right. split; [set_solver|eauto].
  - right. split; [set_solver|eauto].
  - right. split; [set_solver|]. exists v'. apply set_col_set_col.
Qed.

Lemma loc_setitem_inv (e : entity) (c : string) (vs : list float) (t t' : table) :
  loc_setitem e c vs t = inr t' →
  length vs = length (loc_entity e t) ∧
  Forall2 (row_upd [e] c) t t' ∧
  (λ r, r_cols r !! c) <$> loc_entity e t' = Some <$> vs.
Proof.
  revert vs t'. induction t as [|r t IH]; intros vs t' Hset; simpl in Hset.
  - destruct vs; [|discriminate]. injection Hset as <-.
    split; [done|]. split; [constructor|done].
  - unfold loc_entity in *. rewrite filter_cons.
    destruct (decide (r_entity r = e)) as [He|He].
    + destruct vs as [|v vs]; [discriminate|].
      destruct (loc_setitem e c vs t) as [err|t''] eqn:Hrec; [discriminate|].
      simpl in Hset. injection Hset as <-.
      destruct (IH _ _ Hrec) as (Hlen & Hrel & Hcol).
      split; [rewrite !length_cons; by rewrite Hlen|]. split.
      * constructor; [|exact Hrel]. right. split; [set_solver|eauto].
      * rewrite filter_cons_True by done. rewrite !fmap_cons, Hcol.
        f_equal. apply lookup_insert_eq.
    + destruct (loc_setitem e c vs t) as [err|t''] eqn:Hrec; [discriminate|].
      simpl in Hset. injection Hset as <-.
      destruct (IH _ _ Hrec) as (Hlen & Hrel & Hcol).
      split; [exact Hlen|]. split.
      * constructor; [by left|exact Hrel].
      * by rewrite filter_cons_False.
Qed.


Lemma row_upd_entity (es : list entity) (c : string) (r r' : row) :
  row_upd es c r r' → r_key r' = r_key r.
Proof. by intros [->|[_ [v ->]]]. Qed.

Lemma Forall2_row_upd_loc_entity (es : list entity) (c : string) (e : entity)
    (t t' : table) :
  e ∉ es → Forall2 (row_upd es c) t t' → loc_entity e t' = loc_entity e t.
Proof.
  intros He. unfold loc_entity.
  induction 1 as [|r r' t t' Hr _ IH]; [done|].
  rewrite !filter_cons.
  destruct Hr as [->|[Hin [v ->]]].
  - by rewrite IH.
  - simpl. rewrite !decide_False by (intros <-; contradiction). exact IH.
Qed.

Lemma Forall2_row_upd_mono (es es' : list entity) (c : string) (t t' : table) :
  es ⊆ es' → Forall2 (row_upd es c) t t' → Forall2 (row_upd es' c) t t'.
Proof.
  intros Hsub Hrel. eapply Forall2_impl; [exact Hrel|].
  intros r r' [->|[Hin Hv]]; [by left|right; split; [set_solver|done]].
Qed.

(** ** The entity loop *)

Lemma entity_loop_run `{SciLibs}
    (body : config → table → entity → result (option (list float)))
    (cfg : config) (l : loc) (ents : list entity) (σ : store) (t : table) :
  σ !! l = Some t →
  entity_loop body cfg l ents σ
  = match entity_fold body cfg ents t with
    | inl err => inl err
    | inr t' => inr (tt, <[l := t']> σ)
    end.
Proof.
  revert σ t. induction ents as [|e ents IH]; intros σ t Hl; simpl.
  - unfold mret, M_ret. by rewrite insert_id.
  - unfold mbind, M_bind, df_read. rewrite Hl. unfold lift.
    destruct (body cfg t e) as [err|[z|]]; [done| |].
    + unfold df_loc_setitem. rewrite Hl.
      destruct (loc_setitem e (output_item cfg) z t) as [err|t']; [done|].
      rewrite (IH _ t') by apply lookup_insert_eq.
      destruct (entity_fold body cfg ents t'); [done|].
      by rewrite insert_insert_eq.
    + unfold mret, M_ret. by rewrite (IH _ t).
Qed.

Lemma execute_with_run `{SciLibs}
    (body : config → table → entity → result (option (list float)))
    (cfg : config) (df : loc) (σ : store) (T : table) :
  σ !! df = Some T →
  execute_with body cfg df σ
  = match entity_fold body cfg (entities_of T)
            (setitem_scalar (output_item cfg) (fl 0) T) with
    | inl err => inl err
    | inr T' => inr (fresh (dom σ), <[fresh (dom σ) := T']> σ)
    end.
Proof.
  intros Hdf. unfold execute_with, mbind, M_bind, df_copy. rewrite Hdf.
  assert (Hne : fresh (dom σ) ≠ df).
  { intros Heq. apply (is_fresh (dom σ)). rewrite Heq.
    apply elem_of_dom. eauto. }
  unfold df_read. rewrite lookup_insert_ne by done. rewrite Hdf.
  unfold df_setitem_scalar. rewrite lookup_insert_eq, insert_insert_eq.
  rewrite (entity_loop_run _ _ _ _ _ (setitem_scalar (output_item cfg) (fl 0) T))
    by apply lookup_insert_eq.
  destruct (entity_fold _ _ _ _); [done|].
  unfold mret, M_ret. by rewrite insert_insert_eq.
Qed.

Lemma entity_fold_upd
    (body : config → table → entity → result (option (list float)))
    (cfg : config) (ents : list entity) (t t' : table) :
  entity_fold body cfg ents t = inr t' →
  Forall2 (row_upd ents (output_item cfg)) t t'.
Proof.
  revert t. induction ents as [|e ents IH]; intros t Hfold; simpl in Hfold.
  - injection Hfold as <-. apply Forall_Forall2_diag, Forall_forall.
    intros r _. by left.
  - destruct (body cfg t e) as [err|[z|]]; [discriminate| |].
    + destruct (loc_setitem e (output_item cfg) z t) as [err|t1] eqn:Hset;
        [discriminate|].
      apply loc_setitem_inv in Hset as (_ & Hrel & _).
      apply IH in Hfold.
      change (e :: ents) with ([e] ++ ents).
      eapply Forall2_trans; [|exact Hrel|exact Hfold].
      intros r1 r2 r3. apply row_upd_trans.
    + apply IH in Hfold. eapply Forall2_row_upd_mono; [|exact Hfold]. set_solver.
Qed.

(** The bodies read nothing of the table but the rows of their entity. *)
Lemma body_of_local `{SciLibs} (x : extractor) (cfg : config) (t1 t2 : table)
    (e : entity) :
  loc_entity e t1 = loc_entity e t2 → body_of x cfg t1 e = body_of x cfg t2 e.
Proof.
  intros Heq. destruct x; simpl;
    unfold NoData_entity, Spectral_entity, KMeans_entity,
      gap_signal, interpolated_signal; by rewrite Heq.
Qed.

Lemma entity_fold_skipped
    (body : config → table → entity → result (option (list float)))
    (cfg : config) (ents : list entity) (t t' : table) (e : entity) :
  (∀ t1 t2 e', loc_entity e' t1 = loc_entity e' t2 →
               body cfg t1 e' = body cfg t2 e') →
  NoDup ents →
  entity_fold body cfg ents t = inr t' →
  e ∉ ents ∨ body cfg t e = inr None →
  loc_entity e t' = loc_entity e t.
Proof.
  intros Hlocal Hnd. revert t.
  induction Hnd as [|e0 ents Hnotin Hnd IH]; intros t Hfold Hskip; simpl in Hfold.
  - by injection Hfold as <-.
  - destruct (decide (e = e0)) as [->|Hne].
    + destruct Hskip as [Hout|Hnone]; [set_solver|].
      rewrite Hnone in Hfold. apply IH; [exact Hfold|by left].
    + destruct (body cfg t e0) as [err|[z|]]; [discriminate| |].
      * destruct (loc_setitem e0 (output_item cfg) z t) as [err|t1] eqn:Hset;
          [discriminate|].
        apply loc_setitem_inv in Hset as (_ & Hrel & _).
        assert (H1 : loc_entity e t1 = loc_entity e t).
        { eapply Forall2_row_upd_loc_entity; [|exact Hrel]. set_solver. }
        rewrite <- H1. apply IH; [exact Hfold|].
        destruct Hskip as [Hout|Hnone]; [left; set_solver|right].
        rewrite <- Hnone. by apply Hlocal.
      * apply IH; [exact Hfold|].
        destruct Hskip as [Hout|Hnone]; [left; set_solver|by right].
Qed.

Lemma NoDup_entities_of (t : table) : NoDup (entities_of t).
Proof.
  unfold entities_of, np_unique.
  rewrite (merge_sort_Permutation str_le). apply NoDup_remove_dups.
Qed.

Lemma elem_of_entities_of (t : table) (e : entity) :
  e ∈ entities_of t ↔ ∃ r, r ∈ t ∧ r_entity r = e.
Proof.
  unfold entities_of, np_unique.
  rewrite (merge_sort_Permutation str_le), elem_of_remove_dups, list_elem_of_fmap.
  naive_solver.
Qed.

(** ** Frame of [execute] *)

Lemma execute_of_with `{SciLibs} (x : extractor) :
  execute_of x = execute_with (body_of x).
Proof. by destruct x. Qed.

Lemma execute_of_inv `{SciLibs} (x : extractor) (cfg : config)
    (σ σ' : store) (df l' : loc) (T : table) :
  σ !! df = Some T →
  execute_of x cfg df σ = inr (l', σ') →
  ∃ T', entity_fold (body_of x) cfg (entities_of T)
          (setitem_scalar (output_item cfg) (fl 0) T) = inr T' ∧
        l' = fresh (dom σ) ∧ σ' = <[l' := T']> σ.
Proof.
  intros Hdf. rewrite execute_of_with, (execute_with_run _ _ _ _ T Hdf).
  destruct (entity_fold _ _ _ _) as [err|T']; [discriminate|].
  intros [= <- <-]. by exists T'.
Qed.

Lemma setitem_scalar_upd (c : string) (v : float) (T : table) :
  Forall2 (λ r r', r' = set_col c v r) T (setitem_scalar c v T).
Proof.
  unfold setitem_scalar. induction T; csimpl; constructor; auto.
Qed.

(** C9: [execute] of each transformer leaves every object of the caller's
    store as it was, the input table included; it returns a new object, and
    the table it holds has the rows of the input in the same order with the
    same (entity, timestamp) keys, each row being the input row with the
    output column set to some value; every other column is unchanged. *)
Theorem execute_returns_modified_copy `{SciLibs} (x : extractor) (cfg : config)
    (σ σ' : store) (df l' : loc) (T : table) :
  σ !! df = Some T →
  execute_of x cfg df σ = inr (l', σ') →
  σ !! l' = None ∧
  (∀ k, k ≠ l' → σ' !! k = σ !! k) ∧
  σ' !! df = Some T ∧
  ∃ T', σ' !! l' = Some T' ∧
    r_key <$> T' = r_key <$> T ∧
    Forall2 (λ r r', ∃ v, r' = set_col (output_item cfg) v r) T T' ∧
    Forall2 (λ r r', ∀ c, c ≠ output_item cfg →
                          r_cols r' !! c = r_cols r !! c) T T'.
Proof.
  intros Hdf Hex.
  destruct (execute_of_inv x cfg σ σ' df l' T Hdf Hex) as (T' & Hfold & -> & ->).
  assert (Hfresh : σ !! fresh (dom σ) = None).
  { apply not_elem_of_dom. apply is_fresh. }
  assert (Hrel : Forall2 (λ r r', ∃ v, r' = set_col (output_item cfg) v r) T T').
  { apply entity_fold_upd in Hfold.
    eapply Forall2_trans;
      [|apply (setitem_scalar_upd (output_item cfg) (fl 0))|exact Hfold].
    intros r1 r2 r3 -> [->|[_ [v ->]]]; [eauto|].
    exists v. apply set_col_set_col. }
  split; [exact Hfresh|].
  split; [intros k Hk; by rewrite lookup_insert_ne|].
  split.
  { rewrite lookup_insert_ne; [done|]. intros Heq. rewrite Heq in Hfresh. congruence. }
  exists T'. split; [apply lookup_insert_eq|]. split; [|split; [exact Hrel|]].
  - clear -Hrel. induction Hrel as [|r r' t t' [v ->] _ IH]; [done|].
    rewrite !fmap_cons. by rewrite IH.
  - eapply Forall2_impl; [exact Hrel|].
    intros r r' [v ->] c Hc. simpl. by rewrite lookup_insert_ne.
Qed.

(** C1: when the signal extracted for an entity is not longer than
    [windowsize], the loop body of each transformer computes no score for it
    (it returns [None] without calling the extractor), and after [execute]
    every row of that entity holds the default 0 in the output column; the
    entity has as many rows as before. *)
Theorem short_entities_keep_default `{SciLibs} (x : extractor) (cfg : config)
    (σ σ' : store) (df l' : loc) (T : table) (e : entity)
    (dfe : slice) (temperature : list float) :
  σ !! df = Some T →
  signal_of x cfg (setitem_scalar (output_item cfg) (fl 0) T) e
    = inr (dfe, temperature) →
  Z.of_nat (length temperature) ≤ windowsize cfg →
  execute_of x cfg df σ = inr (l', σ') →
  body_of x cfg (setitem_scalar (output_item cfg) (fl 0) T) e = inr None ∧
  ∃ T', σ' !! l' = Some T' ∧
    length (loc_entity e T') = length (loc_entity e T) ∧
    ∀ r, r ∈ T' → r_entity r = e →
         r_cols r !! output_item cfg = Some (fl 0).
Proof.
  intros Hdf Hsig Hshort Hex.
  set (T0 := setitem_scalar (output_item cfg) (fl 0) T) in *.
  assert (Hnone : body_of x cfg T0 e = inr None).
  { destruct x; simpl in *;
      unfold NoData_entity, Spectral_entity, KMeans_entity;
      rewrite Hsig; simpl; unfold score_entity;
      by rewrite bool_decide_eq_false_2 by lia. }
  split; [exact Hnone|].
  destruct (execute_of_inv x cfg σ σ' df l' T Hdf Hex) as (T' & Hfold & -> & ->).
  exists T'. split; [apply lookup_insert_eq|].
  assert (Hrows : loc_entity e T' = loc_entity e T0).
  { eapply entity_fold_skipped; [|apply NoDup_entities_of|exact Hfold|by right].
    intros t1 t2 e'. apply body_of_local. }
  split.
  - rewrite Hrows. unfold T0, setitem_scalar, loc_entity.
    clear. induction T as [|r T IH]; [done|]. csimpl.
    rewrite !filter_cons. simpl. case_decide; simpl; by rewrite IH.
  - intros r Hr He.
    assert (Hin : r ∈ loc_entity e T0).
    { rewrite <- Hrows. by apply list_elem_of_filter. }
    apply list_elem_of_filter in Hin as [_ Hin].
    unfold T0, setitem_scalar in Hin. apply list_elem_of_fmap in Hin as (r0 & -> & _).
    apply lookup_insert_eq.
Qed.

(** ** Realignment *)

Lemma getcol_fmap_insert (c : string) (s : slice) (v : srow → float)
    (g : srow → gmap string float) :
  getcol c ((λ r : srow, (r.1, <[c := v r]> (g r))) <$> s) = inr (v <$> s).
Proof.
  induction s as [|r s IH]; [done|].
  rewrite !fmap_cons. simpl. rewrite lookup_insert_eq.
  unfold fmap at 1 in IH. unfold fmap at 1. rewrite IH. done.
Qed.

Lemma realign_inv `{SciLibs} (cfg : config) (dfe_orig dfe : slice)
    (scoreI : list float) (mindelta : Z) (z : list float) :
  (dfe_orig ≠ [] → output_item cfg ∈ columns dfe_orig) →
  realign cfg dfe_orig dfe scoreI mindelta = inr z →
  length scoreI = length dfe ∧
  z = (λ r : srow, merged_value (s_index dfe) scoreI mindelta r.1) <$> dfe_orig.
Proof.
  intros Hcol. unfold realign, series_of_column.
  case_bool_decide as Hlen; [|discriminate]. simpl.
  unfold merge_asof_nearest.
  case_bool_decide; [discriminate|]. case_bool_decide; [discriminate|].
  destruct dfe_orig as [|r0 s].
  - simpl. unfold select_score. simpl.
    rewrite !bool_decide_eq_false_2 by set_solver. simpl.
    intros [= <-]. done.
  - specialize (Hcol ltac:(done)).
    rewrite (bool_decide_eq_true_2 _ Hcol). simpl andb.
    case_match; [discriminate|].
    cbv [mbind result_bind mret result_ret].
    unfold select_score.
    rewrite bool_decide_eq_true_2.
    2:{ rewrite fmap_cons. simpl. set_solver. }
    intros Hz. split; [done|].
    pose proof (getcol_fmap_insert (suffix_y (output_item cfg)) (r0 :: s)
      (λ r, merged_value (s_index dfe) scoreI mindelta r.1)
      (λ r, rename_col (output_item cfg) (suffix_x (output_item cfg)) r.2)) as Hg.
    unfold merged_value in Hg. rewrite Hg in Hz. by injection Hz as <-.
Qed.

Lemma columns_reset_index_sort (t : table) (c : string) :
  Forall (λ r, is_Some (r_cols r !! c)) t →
  reset_index_sort t ≠ [] → c ∈ columns (reset_index_sort t).
Proof.
  intros Hall Hne. unfold reset_index_sort in *.
  destruct (merge_sort ts_le _) as [|r0 s] eqn:Hs; [done|].
  assert (Hin : r0 ∈ (λ r, (r_ts r, r_cols r)) <$> t).
  { rewrite <- (merge_sort_Permutation ts_le), Hs. left. }
  apply list_elem_of_fmap in Hin as (r & -> & Hr).
  rewrite Forall_forall in Hall. simpl. apply elem_of_dom. by apply Hall.
Qed.

Lemma length_reset_index_sort (t : table) :
  length (reset_index_sort t) = length t.
Proof.
  unfold reset_index_sort.
  by rewrite (merge_sort_Permutation ts_le), length_fmap.
Qed.

Lemma Forall_loc_entity (P : row → Prop) (e : entity) (t : table) :
  Forall P t → Forall P (loc_entity e t).
Proof.
  rewrite !Forall_forall. intros Hall r Hr.
  apply list_elem_of_filter in Hr as [_ Hr]. by apply Hall.
Qed.

Lemma score_entity_inv `{SciLibs}
    (features : Z → list float → result (list float * list float))
    (cfg : config) (dfe_orig dfe : slice) (temperature z : list float) :
  (dfe_orig ≠ [] → output_item cfg ∈ columns dfe_orig) →
  score_entity features cfg dfe_orig dfe temperature = inr (Some z) →
  windowsize cfg < Z.of_nat (length temperature) ∧
  ∃ scoreI,
    stretched_score features (windowsize cfg) temperature = inr scoreI ∧
    length scoreI = length dfe ∧
    z = (λ r : srow,
           merged_value (s_index dfe) scoreI (min_delta (s_index dfe_orig)) r.1)
          <$> dfe_orig.
Proof.
  intros Hcol. unfold score_entity.
  case_bool_decide as Hw; [|discriminate].
  destruct (stretched_score _ _ _) as [err|scoreI]; [discriminate|]. simpl.
  destruct (realign _ _ _ _ _) as [err|z'] eqn:Hre; [discriminate|]. simpl.
  intros [= <-]. split; [done|]. exists scoreI. split; [done|].
  by apply realign_inv in Hre.
Qed.

Lemma body_of_inv `{SciLibs} (x : extractor) (cfg : config) (t : table)
    (e : entity) (z : list float) :
  Forall (λ r, is_Some (r_cols r !! output_item cfg)) t →
  body_of x cfg t e = inr (Some z) →
  ∃ dfe temperature scoreI,
    signal_of x cfg t e = inr (dfe, temperature) ∧
    windowsize cfg < Z.of_nat (length temperature) ∧
    stretched_score (features_of x) (windowsize cfg) temperature = inr scoreI ∧
    length scoreI = length dfe ∧
    z = (λ r : srow,
           merged_value (s_index dfe) scoreI
             (min_delta (s_index (reset_index_sort (loc_entity e t)))) r.1)
          <$> reset_index_sort (loc_entity e t).
Proof.
  intros Hall Hbody.
  assert (Hcol : reset_index_sort (loc_entity e t) ≠ [] →
                 output_item cfg ∈ columns (reset_index_sort (loc_entity e t))).
  { apply columns_reset_index_sort. by apply Forall_loc_entity. }
  destruct x; simpl in *;
    unfold NoData_entity, Spectral_entity, KMeans_entity in Hbody.
  - destruct (gap_signal cfg t e) as [err|[dfe temperature]]; [discriminate|].
    simpl in Hbody. apply score_entity_inv in Hbody as (Hw & scoreI & ? & ? & ?);
      [|done]. by exists dfe, temperature, scoreI.
  - destruct (interpolated_signal cfg t e) as [err|[dfe temperature]]; [discriminate|].
    simpl in Hbody. apply score_entity_inv in Hbody as (Hw & scoreI & ? & ? & ?);
      [|done]. by exists dfe, temperature, scoreI.
  - destruct (interpolated_signal cfg t e) as [err|[dfe temperature]]; [discriminate|].
    simpl in Hbody. apply score_entity_inv in Hbody as (Hw & scoreI & ? & ? & ?);
      [|done]. by exists dfe, temperature, scoreI.
Qed.


(** ** Score stretcher *)

Lemma length_np_arange (n : nat) : length (np_arange n) = n.
Proof. unfold np_arange. by rewrite length_fmap, length_seq. Qed.

Lemma stretch_inv `{SciLibs} (ts scores : list float) (n : nat) (z : list float) :
  stretch ts scores n = inr z →
  length ts = length scores ∧ (interp1d_minval ≤ length ts)%nat ∧
  z = interp1d_call (merge_sort xy_le (zip ts scores)).*1
                    (merge_sort xy_le (zip ts scores)).*2 <$> np_arange n.
Proof.
  unfold stretch, interp1d. intros Hz.
  case_bool_decide as Hlen; [discriminate|].
  case_bool_decide as Hmin; [discriminate|].
  simpl in Hz. injection Hz as <-.
  split; [by destruct (decide (length ts = length scores))|].
  split; [lia|done].
Qed.


(** C4: whatever the strategy, a stretched score has exactly the length of
    the imputed signal it was computed from. *)
Theorem stretcher_length `{SciLibs} (x : extractor) (w : Z)
    (temperature z : list float) :
  stretched_score (features_of x) w temperature = inr z →
  length z = length temperature.
Proof.
  unfold stretched_score. intros Hz.
  destruct (features_of x w temperature) as [err|[ts scores]]; [discriminate|].
  simpl in Hz. apply stretch_inv in Hz as (_ & _ & ->).
  by rewrite length_fmap, length_np_arange.
Qed.

Lemma stretcher_length_witness :
  ∃ z, @stretched_score exact_libs (@features_of exact_libs GapPresence) 1
         [fl 0; fl 1; fl 1; fl 0] = inr z ∧ length z = 4%nat.
Proof.
  eexists. split; [vm_compute; reflexivity|].
  apply (@stretcher_length exact_libs GapPresence 1 [fl 0; fl 1; fl 1; fl 0]).
  vm_compute. reflexivity.
Defined.

(** ** ASAnomalyHandler *)

(** C10: constructing an [ASAnomalyHandler] raises [AttributeError] on
    [df] for every argument triple, whatever the rest of [__init__] does;
    [entities] and [scorer] are neither local to [score] nor bound in the
    module or among the built-ins, so reading either raises [NameError], and
    [score] raises on every input before its loop starts. *)
Theorem ASAnomalyHandler_never_scores
    (init_rest : ASAnomalyHandler.pyval → ASAnomalyHandler.instance →
                 ASAnomalyHandler.pyval → ASAnomalyHandler.pyval →
                 ASAnomalyHandler.pyval → M ASAnomalyHandler.instance)
    (score_loop : ASAnomalyHandler.pyval →
                  (string → result ASAnomalyHandler.pyval) →
                  ASAnomalyHandler.instance → loc → M loc) :
  (∀ input_item output_item scorer σ,
     ASAnomalyHandler.construct init_rest input_item output_item scorer σ
     = inl (AttributeError "df")) ∧
  ("entities"%string ∉ ASAnomalyHandler.score_locals) ∧
  ("scorer"%string ∉ ASAnomalyHandler.score_locals) ∧
  ASAnomalyHandler.load_global "entities" = inl (NameError "entities") ∧
  ASAnomalyHandler.load_global "scorer" = inl (NameError "scorer") ∧
  (∀ self df σ,
     ASAnomalyHandler.score score_loop self df σ = inl (NameError "entities")).
Proof.
  split; [|split; [|split; [|split; [|split]]]].
  - intros i o s σ. reflexivity.
  - apply (bool_decide_unpack _). vm_compute. exact I.
  - apply (bool_decide_unpack _). vm_compute. exact I.
  - vm_compute. reflexivity.
  - vm_compute. reflexivity.
  - intros self df σ. reflexivity.
Qed.

(** ** Clustering extractor *)

Lemma length_np_linspace (a b : float) (num : nat) :
  length (np_linspace a b num) = num.
Proof.
  unfold np_linspace. case_match.
  - by rewrite length_insert, length_fmap, length_seq.
  - by rewrite length_fmap, length_seq.
Qed.


Lemma KMeans_centers_floor (w : Z) (size : nat) :
  KMeans_centers w size
  = np_linspace (fl (w `div` 2)) (fl (Z.of_nat size - w `div` 2 + 1))
                (Z.to_nat (Z.of_nat size - w + 1)).
Proof. reflexivity. Qed.




(** ** Presence grid *)

Lemma reset_index_sort_strongly_sorted (t : table) :
  StronglySorted ts_le (reset_index_sort t).
Proof. apply (StronglySorted_merge_sort ts_le). Qed.

Lemma filter_all {A : Type} (P : A → Prop) `{!∀ x, Decision (P x)} (l : list A) :
  Forall P l → filter P l = l.
Proof.
  induction 1 as [|x l Hx _ IH]; [done|].
  by rewrite filter_cons_True, IH.
Qed.

Lemma filter_none {A : Type} (P : A → Prop) `{!∀ x, Decision (P x)} (l : list A) :
  Forall (λ x, ¬ P x) l → filter P l = [].
Proof.
  induction 1 as [|x l Hx _ IH]; [done|].
  by rewrite filter_cons_False, IH.
Qed.

Lemma filter_ext_Forall {A : Type} (P Q : A → Prop) `{!∀ x, Decision (P x)}
    `{!∀ x, Decision (Q x)} (l : list A) :
  Forall (λ x, P x ↔ Q x) l → filter P l = filter Q l.
Proof.
  induction 1 as [|x l Hx _ IH]; [done|].
  rewrite !filter_cons, IH.
  destruct (decide (P x)), (decide (Q x)); tauto.
Qed.

Lemma take_while_cons {A : Type} (P : A → Prop) `{!∀ x, Decision (P x)}
    (x : A) (l : list A) :
  take_while P (x :: l) = if decide (P x) then x :: take_while P l else [].
Proof. reflexivity. Qed.

(** On a time-sorted slice the scan for the rows before an edge is a
    filter, and what is left are the rows from the edge on. *)
Lemma take_while_sorted (e : Z) (s : slice) :
  StronglySorted ts_le s →
  take_while (λ r : srow, r.1 < e) s = filter (λ r : srow, r.1 < e) s ∧
  drop (length (take_while (λ r : srow, r.1 < e) s)) s
  = filter (λ r : srow, e ≤ r.1) s.
Proof.
  induction 1 as [|r s Hs IH Hall]; [done|].
  destruct IH as [IH1 IH2]. rewrite take_while_cons.
  destruct (decide (r.1 < e)) as [Hlt|Hge].
  - rewrite filter_cons_True by done. rewrite filter_cons_False by lia.
    rewrite IH1. split; [done|].
    rewrite length_cons, skipn_cons, <- IH1. exact IH2.
  - rewrite filter_cons_False by done. rewrite filter_cons_True by lia.
    split.
    + symmetry. apply filter_none.
      eapply Forall_impl; [exact Hall|]. unfold ts_le. intros x Hx. lia.
    + rewrite length_nil, drop_0. f_equal. symmetry. apply filter_all.
      eapply Forall_impl; [exact Hall|]. unfold ts_le. intros x Hx. lia.
Qed.

Lemma StronglySorted_filter {A : Type} (R : relation A) (P : A → Prop)
    `{!∀ x, Decision (P x)} (l : list A) :
  StronglySorted R l → StronglySorted R (filter P l).
Proof.
  induction 1 as [|x l Hs IH Hall]; [constructor|].
  rewrite filter_cons. case_decide; [|done].
  constructor; [done|].
  rewrite Forall_forall in Hall. apply Forall_forall.
  intros y Hy. apply list_elem_of_filter in Hy as [_ Hy]. by apply Hall.
Qed.

Lemma length_bin_rows (edges : list Z) (s : slice) :
  length (bin_rows edges s) = length edges.
Proof.
  revert s. induction edges as [|e es IH]; intros s; [done|].
  simpl. by rewrite IH.
Qed.

(** Bucket [k] of the scan holds the rows from the previous edge up to,
    and without, its own right edge. *)
Lemma bin_rows_lookup (edges : list Z) (lo : Z) (s : slice) (k : nat) (b : slice) :
  StronglySorted ts_le s →
  Forall (λ r : srow, lo ≤ r.1) s →
  StronglySorted Z.le (lo :: edges) →
  bin_rows edges s !! k = Some b →
  ∃ from hi, (lo :: edges) !! k = Some from ∧ edges !! k = Some hi ∧
             b = filter (λ r : srow, from ≤ r.1 < hi) s.
Proof.
  revert lo s k b. induction edges as [|e es IH]; intros lo s k b Hs Hlo Hed Hb;
    [done|].
  simpl in Hb. destruct (take_while_sorted e s Hs) as [Htw Hdrop].
  destruct k as [|k]; simpl in Hb.
  - injection Hb as <-. exists lo, e. split; [done|]. split; [done|].
    rewrite Htw. apply filter_ext_Forall.
    eapply Forall_impl; [exact Hlo|]. intros x Hx. simpl in Hx. lia.
  - rewrite Hdrop in Hb.
    apply StronglySorted_inv in Hed as [Hed Hall].
    apply IH with (lo := e) in Hb as (from & hi & Hfrom & Hhi & ->).
    + exists from, hi. split; [done|]. split; [done|].
      rewrite list_filter_filter. apply filter_ext_Forall, Forall_forall.
      intros x _. 
      assert (e ≤ from).
      { destruct k as [|k]; simpl in Hfrom; [injection Hfrom as <-; lia|].
        apply StronglySorted_inv in Hed as [_ Hall'].
        rewrite Forall_forall in Hall'. apply Hall'.
        by eapply list_elem_of_lookup_2. }
      lia.
    + by apply StronglySorted_filter.
    + apply Forall_forall. intros x Hx.
      by apply list_elem_of_filter in Hx as [Hx _].
    + done.
Qed.

Lemma resample_edges_spec (first last freq : Z) :
  0 < freq → first ≤ last →
  let fe := resample_first_edge first freq in
  let le := resample_last_edge first last freq in
  fe ≤ first < fe + freq ∧ last < le ∧
  le = fe + Z.of_nat (resample_nbins first last freq) * freq ∧
  (0 < resample_nbins first last freq)%nat.
Proof.
  intros Hf Hfl fe le.
  set (o := normalize first).
  assert (Hfe : fe = o + freq * ((first - o) `div` freq)).
  { subst fe. unfold resample_first_edge. fold o.
    pose proof (Z.div_mod (first - o) freq ltac:(lia)) as Hdm.
    pose proof (Z.mod_pos_bound (first - o) freq Hf) as Hb.
    case_match; [lia|]. apply Z.ltb_ge in H. lia. }
  assert (Hle : le = o + freq * ((last - o) `div` freq + 1)).
  { subst le. unfold resample_last_edge. fold o.
    pose proof (Z.div_mod (last - o) freq ltac:(lia)) as Hdm.
    pose proof (Z.mod_pos_bound (last - o) freq Hf) as Hb.
    case_match; [lia|]. apply Z.ltb_ge in H. lia. }
  pose proof (Z.div_mod (first - o) freq ltac:(lia)) as Hdm1.
  pose proof (Z.mod_pos_bound (first - o) freq Hf) as Hb1.
  pose proof (Z.div_mod (last - o) freq ltac:(lia)) as Hdm2.
  pose proof (Z.mod_pos_bound (last - o) freq Hf) as Hb2.
  assert (Hq : (first - o) `div` freq ≤ (last - o) `div` freq)
    by (apply Z.div_le_mono; lia).
  assert (Hn : Z.of_nat (resample_nbins first last freq)
               = (last - o) `div` freq + 1 - (first - o) `div` freq).
  { unfold resample_nbins. fold fe le. rewrite Hfe, Hle.
    replace (o + freq * ((last - o) `div` freq + 1)
             - (o + freq * ((first - o) `div` freq)))
      with (((last - o) `div` freq + 1 - (first - o) `div` freq) * freq) by lia.
    rewrite Z.div_mul by lia. lia. }
  split; [lia|]. split; [nia|]. split; [nia|lia].
Qed.

Lemma lookup_resample_labels (first last freq : Z) (k : nat) (label : Z) :
  resample_labels first last freq !! k = Some label ↔
  label = resample_first_edge first freq + Z.of_nat k * freq ∧
  (k < resample_nbins first last freq)%nat.
Proof.
  unfold resample_labels. rewrite list_lookup_fmap.
  destruct (seq 0 (resample_nbins first last freq) !! k) as [j|] eqn:Hj; simpl.
  - apply lookup_seq in Hj as [-> Hk]. simpl. naive_solver.
  - split; [done|]. intros [_ Hk].
    rewrite lookup_seq_lt in Hj by done. done.
Qed.

Lemma length_resample_labels (first last freq : Z) :
  length (resample_labels first last freq) = resample_nbins first last freq.
Proof. unfold resample_labels. by rewrite length_fmap, length_seq. Qed.

Lemma StronglySorted_monotone (g : nat → Z) (i n : nat) :
  (∀ j k : nat, (j ≤ k)%nat → g j ≤ g k) →
  StronglySorted Z.le (g <$> seq i n).
Proof.
  intros Hg. revert i. induction n as [|n IH]; intros i; [constructor|].
  csimpl. constructor; [apply IH|].
  apply Forall_forall. intros x Hx.
  apply list_elem_of_fmap in Hx as (k & -> & Hk).
  apply elem_of_seq in Hk. apply Hg. lia.
Qed.

Lemma sorted_last_max (l : list Z) (x m : Z) :
  Sorted Z.le l → last l = Some m → x ∈ l → x ≤ m.
Proof.
  intros Hs. apply Sorted_StronglySorted in Hs; [|intros ???; lia].
  revert x. induction Hs as [|a l Hs IH Hall]; [done|].
  intros x Hlast Hx.
  destruct l as [|b l].
  - simpl in Hlast. injection Hlast as <-. set_solver.
  - rewrite last_cons_cons in Hlast.
    apply elem_of_cons in Hx as [->|Hx]; [|by apply IH].
    rewrite Forall_forall in Hall.
    etrans; [apply (Hall b); left|]. apply IH; [done|left].
Qed.

Lemma s_index_sorted (s : slice) :
  StronglySorted ts_le s → Sorted Z.le (s_index s).
Proof.
  intros Hs. apply StronglySorted_Sorted in Hs.
  unfold s_index. by apply Sorted_fmap with (R1 := ts_le).
Qed.


Lemma min_delta_pos (idx : list Z) : Sorted Z.le idx → 0 < min_delta idx.
Proof.
  intros Hs. unfold min_delta.
  destruct (td_min (diff idx)) as [d|] eqn:Hd; [|done].
  apply td_min_spec in Hd as [Hin _].
  pose proof (diff_nonneg idx Hs) as Hnn. rewrite Forall_forall in Hnn.
  specialize (Hnn d Hin). simpl in Hnn.
  destruct (d =? 0) eqn:H0; [done|]. apply Z.eqb_neq in H0. lia.
Qed.

Lemma mean_delta_pos (idx : list Z) : Sorted Z.le idx → 0 < mean_delta idx.
Proof.
  intros Hs. unfold mean_delta.
  pose proof (min_delta_pos idx Hs) as Hmin.
  destruct (td_mean (diff idx)) as [d|] eqn:Hd; [|done].
  destruct (d =? 0) eqn:H0; [done|]. apply Z.eqb_neq in H0.
  unfold td_mean in Hd. destruct (diff idx) as [|d0 ds] eqn:Hds; [done|].
  pose proof (diff_nonneg idx Hs) as Hnn. rewrite Hds in Hnn.
  apply td_sum_nonneg in Hnn.
  remember (td_sum (d0 :: ds)) as a eqn:Ha.
  remember (Z.of_nat (length (d0 :: ds))) as n eqn:Hn.
  assert (Hq : d = a `quot` n) by congruence.
  assert (0 ≤ a `quot` n); [|lia].
  apply Z.quot_pos; [done|]. subst n. simpl. lia.
Qed.

Lemma getcol_inv (c : string) (s : slice) (vs : list float) :
  getcol c s = inr vs → Forall2 (λ (r : srow) v, r.2 !! c = Some v) s vs.
Proof.
  revert vs. induction s as [|r s IH]; intros vs Hg; simpl in Hg.
  - injection Hg as <-. constructor.
  - destruct (r.2 !! c) as [v|] eqn:Hv; [|discriminate].
    destruct (getcol c s) as [err|vs']; [discriminate|].
    simpl in Hg. injection Hg as <-. constructor; [done|by apply IH].
Qed.

Lemma lookup_resample_bucket (cols : gset string) (b : slice) (c : string)
    (v : float) :
  resample_bucket cols b !! c = Some v →
  c ∈ cols ∧ v = custom_resampler (omap (λ r : srow, r.2 !! c) b).
Proof.
  unfold resample_bucket. intros Hl.
  apply lookup_set_to_map in Hl as (c' & Hc' & Heq).
  - injection Heq as -> ->. done.
  - intros y y' _ _ Hy. exact Hy.
Qed.

(** The resampled slice: its index is the regular grid, and row [k] holds,
    per column, the first value of the rows between label [k] and the next
    label. *)
Lemma resample_apply_spec (s : slice) (freq : Z) (first last : Z) :
  StronglySorted ts_le s → 0 < freq →
  head (s_index s) = Some first → list.last (s_index s) = Some last →
  s_index (resample_apply s freq) = resample_labels first last freq ∧
  ∀ k label m, resample_apply s freq !! k = Some (label, m) →
    m = resample_bucket (columns s) (spec_bucket s label freq).
Proof.
  intros Hs Hf Hfirst Hlast.
  destruct s as [|r0 s']; [done|].
  simpl in Hfirst. injection Hfirst as <-.
  unfold resample_apply. rewrite Hlast. simpl default.
  set (labels := resample_labels r0.1 last freq).
  set (edges := (λ l, l + freq) <$> labels).
  assert (Hlen : length (bin_rows edges (r0 :: s')) = length labels).
  { by rewrite length_bin_rows; unfold edges; rewrite length_fmap. }
  split.
  { unfold s_index. apply fst_zip. rewrite length_fmap. lia. }
  intros k label m Hk.
  apply lookup_zip_with_Some in Hk as (l & m' & [= <- <-] & Hl & Hm).
  rewrite list_lookup_fmap in Hm.
  destruct (bin_rows edges (r0 :: s') !! k) as [b|] eqn:Hb; [|done].
  simpl in Hm. injection Hm as <-. f_equal.
  assert (Hle : r0.1 ≤ last).
  { eapply (sorted_last_max (s_index (r0 :: s'))); [by apply s_index_sorted|done|left]. }
  destruct (resample_edges_spec r0.1 last freq Hf Hle) as ((Hfe1 & Hfe2) & _).
  apply bin_rows_lookup with (lo := resample_first_edge r0.1 freq) in Hb
    as (from & hi & Hfrom & Hhi & ->); [| done | |].
  - unfold spec_bucket.
    apply lookup_resample_labels in Hl as [-> Hkn].
    assert (hi = resample_first_edge r0.1 freq + Z.of_nat k * freq + freq).
    { unfold edges in Hhi. rewrite list_lookup_fmap in Hhi.
      destruct (labels !! k) as [l|] eqn:Hlk; [|done].
      apply lookup_resample_labels in Hlk as [-> _]. simpl in Hhi. congruence. }
    assert (from = resample_first_edge r0.1 freq + Z.of_nat k * freq).
    { destruct k as [|k]; simpl in Hfrom; [injection Hfrom as <-; lia|].
      unfold edges in Hfrom. rewrite list_lookup_fmap in Hfrom.
      destruct (labels !! k) as [l|] eqn:Hlk; [|done].
      apply lookup_resample_labels in Hlk as [-> _]. simpl in Hfrom.
      injection Hfrom as <-. lia. }
    by subst.
  - apply StronglySorted_inv in Hs as [_ Hall].
    constructor; [simpl; lia|].
    eapply Forall_impl; [exact Hall|]. unfold ts_le. intros x Hx. lia.
  - unfold edges, labels, resample_labels. rewrite <- list_fmap_compose.
    constructor.
    + apply StronglySorted_monotone. intros j k' Hjk. simpl. nia.
    + apply Forall_forall. intros x Hx.
      apply list_elem_of_fmap in Hx as (j & -> & _). simpl. nia.
Qed.

Lemma s_index_gap_frame (up : slice) : s_index (gap_frame up) = s_index up.
Proof.
  unfold s_index, gap_frame. rewrite <- list_fmap_compose.
  by apply list_fmap_ext.
Qed.

Lemma head_le_sorted (s : slice) (r0 r : srow) :
  StronglySorted ts_le s → head s = Some r0 → r ∈ s → r0.1 ≤ r.1.
Proof.
  intros Hs Hh Hr. destruct s as [|r1 s]; [done|].
  injection Hh as ->. apply StronglySorted_inv in Hs as [_ Hall].
  apply elem_of_cons in Hr as [->|Hr]; [lia|].
  rewrite Forall_forall in Hall. by apply Hall.
Qed.

(** C8, amended: the gap-presence signal is the indicator, per bucket of a
    regular grid of period [mean_delta], of "the bucket is empty or the
    input value of its first record is missing": 1 in that case, 0 when the
    first record of the bucket has a value.  Every record of the slice lies
    in one of the buckets. *)
Theorem gap_signal_indicator (cfg : config) (t : table) (e : entity)
    (dfe : slice) (temperature : list float) :
  gap_signal cfg t e = inr (dfe, temperature) →
  let s := reset_index_sort (loc_entity e t) in
  let freq := mean_delta (s_index s) in
  0 < freq ∧
  length temperature = length dfe ∧
  (∀ k label, s_index dfe !! k = Some label →
     (∃ label0, s_index dfe !! 0%nat = Some label0 ∧
                label = label0 + Z.of_nat k * freq) ∧
     (spec_bucket s label freq = [] → temperature !! k = Some (fl 1)) ∧
     (∀ r rest v, spec_bucket s label freq = r :: rest →
        r.2 !! input_item cfg = Some v →
        temperature !! k = Some (if isna v then fl 1 else fl 0))) ∧
  (∀ r, r ∈ s →
     ∃ k label, s_index dfe !! k = Some label ∧ label ≤ r.1 < label + freq).
Proof.
  intros Hsig s freq.
  pose proof (reset_index_sort_strongly_sorted (loc_entity e t)) as Hs.
  fold s in Hs.
  assert (Hfreq : 0 < freq) by (apply mean_delta_pos, s_index_sorted, Hs).
  unfold gap_signal in Hsig. fold s in Hsig. fold freq in Hsig.
  clearbody freq. clearbody s.
  destruct (getcol _ _) as [err|vs] eqn:Hg; [discriminate|].
  simpl in Hsig. injection Hsig as <- <-.
  apply getcol_inv in Hg.
  split; [done|]. split; [symmetry; by eapply Forall2_length|].
  rewrite s_index_gap_frame.
  destruct (head (s_index s)) as [first|] eqn:Hfirst.
  2:{ destruct s; [|done]. split; [done|]. intros r Hr. by apply elem_of_nil in Hr. }
  destruct (list.last (s_index s)) as [last|] eqn:Hlast.
  2:{ apply last_None in Hlast. by rewrite Hlast in Hfirst. }
  destruct (resample_apply_spec s freq first last Hs Hfreq Hfirst Hlast)
    as [Hidx Hrows].
  assert (Hfl : first ≤ last).
  { eapply (sorted_last_max (s_index s)); [by apply s_index_sorted|done|].
    by eapply head_Some_elem_of. }
  destruct (resample_edges_spec first last freq Hfreq Hfl)
    as ((Hfe1 & Hfe2) & Hle1 & Hle2 & Hn).
  split.
  - intros k label Hk. rewrite Hidx in Hk |- *.
    split.
    { exists (resample_first_edge first freq). split.
      - apply lookup_resample_labels. split; [lia|done].
      - by apply lookup_resample_labels in Hk as [-> _]. }
    unfold s_index in Hidx.
    assert (Hup : ∃ m, resample_apply s freq !! k = Some (label, m)).
    { rewrite <- Hidx, list_lookup_fmap in Hk.
      destruct (resample_apply s freq !! k) as [[l m]|]; [|done].
      simpl in Hk. injection Hk as ->. by exists m. }
    destruct Hup as [m Hm]. pose proof (Hrows _ _ _ Hm) as ->.
    assert (Hv : ∃ v, vs !! k = Some v ∧
      (λ v, fillna (fl 1) (where_isna (fl 0) v))
        <$> (resample_bucket (columns s) (spec_bucket s label freq)
               !! input_item cfg) = Some v).
    { unfold gap_frame in Hg.
      assert (Hd : ((λ r : srow,
          (r.1, (λ v, fillna (fl 1) (where_isna (fl 0) v)) <$> r.2))
            <$> resample_apply s freq) !! k
          = Some (label, (λ v, fillna (fl 1) (where_isna (fl 0) v))
                   <$> resample_bucket (columns s) (spec_bucket s label freq)))
        by (by rewrite list_lookup_fmap, Hm).
      destruct (Forall2_lookup_l _ _ _ _ _ Hg Hd) as (v & Hv & Hl).
      exists v. split; [done|]. simpl in Hl. by rewrite lookup_fmap in Hl. }
    destruct Hv as (v & Hvk & Hl).
    destruct (resample_bucket _ _ !! input_item cfg) as [v0|] eqn:Hv0; [|done].
    simpl in Hl. injection Hl as <-.
    apply lookup_resample_bucket in Hv0 as [_ ->].
    split.
    + intros Hb. by rewrite Hvk, Hb.
    + intros r rest v Hb Hr. rewrite Hvk, Hb. simpl. rewrite Hr. simpl.
      by destruct v.
  - intros r Hr. rewrite Hidx.
    assert (Hr1 : first ≤ r.1).
    { unfold s_index in Hfirst. destruct s as [|r0 s'] eqn:Hs0; [done|].
      simpl in Hfirst. injection Hfirst as <-.
      by apply (head_le_sorted (r0 :: s') r0 r). }
    assert (Hr2 : r.1 ≤ last).
    { eapply (sorted_last_max (s_index s)); [by apply s_index_sorted|done|].
      unfold s_index. apply list_elem_of_fmap. by exists r. }
    set (fe := resample_first_edge first freq) in *.
    set (q := (r.1 - fe) `div` freq).
    pose proof (Z.div_mod (r.1 - fe) freq ltac:(lia)) as Hdm.
    pose proof (Z.mod_pos_bound (r.1 - fe) freq Hfreq) as Hb.
    assert (0 ≤ q) by (apply Z.div_pos; lia).
    assert (q < Z.of_nat (resample_nbins first last freq)).
    { apply Z.div_lt_upper_bound; lia. }
    exists (Z.to_nat q), (fe + q * freq). split.
    + apply lookup_resample_labels. split; [|lia].
      fold fe. rewrite Z2Nat.id by done. done.
    + fold q in Hdm. lia.
Qed.

(** ** Spectral-energy extractor *)

Lemma fmul_one (f : float) : fmul f (fl 1) = f.
Proof.
  destruct f as [x|]; [|done]. unfold fmul, fl. simpl.
  by rewrite Z2Qc_inj_1, Qcmult_1_r.
Qed.

Lemma fmul_zero (x : Qc) : fmul (Some x) (fl 0) = fl 0.
Proof.
  unfold fmul, fl. simpl. by rewrite Z2Qc_inj_0, Qcmult_0_r.
Qed.

Lemma zip_with_fmap_same {A B C : Type} (g : A → B → C) (h : A → B)
    (l : list A) :
  zip_with g l (h <$> l) = (λ x, g x (h x)) <$> l.
Proof. induction l as [|x l IH]; [done|]. csimpl. by rewrite IH. Qed.

(** The masked axis of the code is the one the specification describes. *)
Lemma cut_low_freqs_spec (w : Z) (freqs : list float) :
  w ≠ 0 → cut_low_freqs w freqs = spec_masked_axis w freqs.
Proof.
  intros Hw. unfold cut_low_freqs, spec_masked_axis.
  rewrite zip_with_fmap_same, <- list_fmap_compose.
  apply list_fmap_ext. intros _ f _. unfold compose. cbv beta.
  assert (Hth : ∃ q, fdiv (fl 2) (fl w) = Some q).
  { unfold fdiv, fl. destruct (decide (Qc_of_Z w = 0%Qc)) as [H0|]; [|by eexists].
    rewrite <- Z2Qc_inj_0 in H0. by apply Z2Qc_inj in H0. }
  destruct Hth as [q ->].
  destruct f as [x|]; [|done]. unfold fgtb, fleb.
  destruct (decide (q < x)%Qc) as [Hlt|Hge].
  - rewrite bool_decide_eq_true_2 by done.
    rewrite bool_decide_eq_false_2 by (by apply Qclt_not_le).
    by rewrite fmul_one.
  - rewrite bool_decide_eq_false_2 by done.
    rewrite bool_decide_eq_true_2 by (by apply Qcnot_lt_le).
    by rewrite fmul_zero.
Qed.

Lemma Qcabs_square (x : Qc) : (Qcabs x * Qcabs x = x * x)%Qc.
Proof.
  destruct (Qclt_le_dec x 0) as [Hneg|Hpos].
  - rewrite Qcabs_neg by (by apply Qclt_le_weak). ring.
  - by rewrite Qcabs_pos.
Qed.



(** The product of the transposed magnitude grid with the axis is, segment
    by segment, the dot product of the segment's column with the axis. *)
Lemma np_dot_transpose (Sx : list (list float)) (axis : list float) :
  length Sx = length axis →
  np_dot (transpose Sx) axis
  = inr ((λ j, spec_energy Sx axis j)
           <$> seq 0 (match Sx with r :: _ => length r | [] => O end)).
Proof.
  intros Hlen. unfold np_dot, transpose.
  rewrite bool_decide_eq_true_2.
  - by rewrite <- list_fmap_compose.
  - apply Forall_forall. intros r Hr.
    apply list_elem_of_fmap in Hr as (j & -> & _).
    by rewrite length_fmap.
Qed.

Lemma length_spec_masked_axis (w : Z) (freqs : list float) :
  length (spec_masked_axis w freqs) = length freqs.
Proof. unfold spec_masked_axis. by rewrite length_fmap. Qed.



(** ** Runs on the example tables *)

(** Evaluating a run of the model and handing its value to a continuation. *)
Ltac with_value t k :=
  let r := eval vm_compute in t in
  lazymatch r with
  | inr ?v => k v
  end.

Ltac by_evaluation := vm_compute; reflexivity.

Lemma short_entities_keep_default_witness :
  @body_of exact_libs RawSpectral wide_config
     (setitem_scalar "score" (fl 0) short_table) "A" = inr None.
Proof.
  with_value (signal_of RawSpectral wide_config
                (setitem_scalar "score" (fl 0) short_table) "A")
    ltac:(fun sv => lazymatch sv with (?dfe, ?temperature) =>
  with_value (@execute_of exact_libs RawSpectral wide_config 1%positive
                {[1%positive := short_table]})
    ltac:(fun ev => lazymatch ev with (?l', ?σ') =>
      destruct (@short_entities_keep_default exact_libs RawSpectral
                  wide_config {[1%positive := short_table]} σ' 1%positive l'
                  short_table "A" dfe temperature) as [Hnone _];
        [reflexivity|by_evaluation|vm_compute; discriminate|by_evaluation
        |exact Hnone]
    end) end).
Defined.

Lemma execute_returns_modified_copy_witness :
  ∃ l' σ',
    @execute_of exact_libs GapPresence gap_config 1%positive
       {[1%positive := gap_table_sorted]} = inr (l', σ') ∧
    σ' !! 1%positive = Some gap_table_sorted.
Proof.
  with_value (@execute_of exact_libs GapPresence gap_config 1%positive
                {[1%positive := gap_table_sorted]})
    ltac:(fun ev => lazymatch ev with (?l', ?σ') =>
      exists l', σ'; split; [by_evaluation|];
      refine (proj1 (proj2 (proj2
        (@execute_returns_modified_copy exact_libs GapPresence gap_config
           {[1%positive := gap_table_sorted]} σ' 1%positive l'
           gap_table_sorted _ _))));
        [reflexivity|by_evaluation]
    end).
Defined.



Lemma gap_signal_indicator_witness :
  ∃ dfe temperature,
    gap_signal gap_config (setitem_scalar "score" (fl 0) gap_table_sorted) "E"
      = inr (dfe, temperature) ∧
    length temperature = length dfe.
Proof.
  with_value (gap_signal gap_config
                (setitem_scalar "score" (fl 0) gap_table_sorted) "E")
    ltac:(fun sv => lazymatch sv with (?dfe, ?temperature) =>
      exists dfe, temperature; split; [by_evaluation|];
      refine (proj1 (proj2
        (gap_signal_indicator gap_config
           (setitem_scalar "score" (fl 0) gap_table_sorted) "E" dfe temperature
           _)));
      by_evaluation
    end).
Defined.

(** C8 as stated fails: with records at 0 s (no value), 1 s (value 3) and
    10 s (value 1) the grid has period 5 s; the first bucket holds two raw
    records, one of them with a value, and its indicator is 1, not 0. *)
Lemma bucket_with_samples_flagged_as_gap :
  let T0 := setitem_scalar "score" (fl 0) missing_first_table in
  let s := reset_index_sort (loc_entity "E" T0) in
  ∃ dfe,
    gap_signal gap_config T0 "E" = inr (dfe, [fl 1; fl 1; fl 0]) ∧
    s_index dfe = [0; seconds 5; seconds 10] ∧
    mean_delta (s_index s) = seconds 5 ∧
    (λ r : srow, (r.1, r.2 !! "temp"%string)) <$> spec_bucket s 0 (seconds 5)
      = [(seconds 0, Some NaN); (seconds 1, Some (fl 3))] ∧
    fl 1 ≠ fl 0.
Proof.
  intros T0 s.
  with_value (gap_signal gap_config T0 "E")
    ltac:(fun sv => lazymatch sv with (?dfe, _) => exists dfe end).
  split; [apply (bool_decide_unpack _); vm_compute; exact I|].
  split; [by_evaluation|]. split; [by_evaluation|].
  split; [apply (bool_decide_unpack _); vm_compute; exact I|].
  intros Heq. apply (f_equal (fmap this)) in Heq. vm_compute in Heq. discriminate.
Qed.

(** C2: the same four records, stored in time order and with the latest
    record first.  In time order the scores are -2, NaN, NaN, 0.  With the
    latest record first, the array is still computed in time order but
    assigned to the rows in table order: the row at 13 s receives -2, the
    score of the record at 0 s, and every other row the score of its
    successor in time. *)
Theorem realignment_misplaces_scores_of_unsorted_rows :
  gap_table_unsorted ≡ₚ gap_table_sorted ∧
  @body_of exact_libs GapPresence gap_config
     (setitem_scalar "score" (fl 0) gap_table_sorted) "E"
  = @body_of exact_libs GapPresence gap_config
     (setitem_scalar "score" (fl 0) gap_table_unsorted) "E" ∧
  scores_by_key "score"
    <$> run (@NoData_execute exact_libs) gap_config gap_table_sorted
  = inr [("E"%string, seconds 0, Some (fl (-2)));
         ("E"%string, seconds 2, Some NaN);
         ("E"%string, seconds 3, Some NaN);
         ("E"%string, seconds 13, Some (fl 0))] ∧
  scores_by_key "score"
    <$> run (@NoData_execute exact_libs) gap_config gap_table_unsorted
  = inr [("E"%string, seconds 13, Some (fl (-2)));
         ("E"%string, seconds 0, Some NaN);
         ("E"%string, seconds 2, Some NaN);
         ("E"%string, seconds 3, Some (fl 0))].
Proof.
  split.
  { unfold gap_table_unsorted, gap_table_sorted.
    apply (Permutation_cons_append [_; _; _]). }
  split; [by_evaluation|].
  split; apply (bool_decide_unpack _); vm_compute; exact I.
Qed.

(** * Further properties of the code *)

(** ** Window parameters (constructors, lines 130-147, 273-290, 410-424) *)


(** ** Sampling normalizer (lines 170-177, 312-314, 445-447) *)

Lemma td_sum_ge_min (ds : list Z) (m : Z) :
  Forall (λ x, m ≤ x) ds → Z.of_nat (length ds) * m ≤ td_sum ds.
Proof.
  induction 1 as [|d ds Hd _ IH]; [unfold td_sum; simpl; lia|].
  change (td_sum (d :: ds)) with (d + td_sum ds).
  rewrite length_cons. lia.
Qed.

(** X2: on every entity slice the merge tolerance and the resampling period
    are strictly positive, and when the smallest step between records is not
    zero the tolerance does not exceed the period. *)
Theorem tolerance_and_period_positive (t : table) :
  let idx := s_index (reset_index_sort t) in
  0 < min_delta idx ∧ 0 < mean_delta idx ∧
  (∀ d, td_min (diff idx) = Some d → d ≠ 0 → min_delta idx ≤ mean_delta idx).
Proof.
  intros idx.
  pose proof (reset_index_sort_sorted t) as Hs. fold idx in Hs.
  split; [by apply min_delta_pos|]. split; [by apply mean_delta_pos|].
  intros d Hd Hne.
  pose proof (diff_nonneg idx Hs) as Hnn.
  unfold mean_delta, min_delta. rewrite Hd.
  apply Z.eqb_neq in Hne as Hne'. rewrite Hne'.
  apply td_min_spec in Hd as [Hin Hle].
  assert (Hpos : 1 ≤ d).
  { rewrite Forall_forall in Hnn. specialize (Hnn d Hin). simpl in Hnn. lia. }
  destruct (diff idx) as [|d0 ds] eqn:Hds; [by apply elem_of_nil in Hin|].
  unfold td_mean.
  pose proof (td_sum_ge_min _ _ Hle) as Hsum.
  remember (td_sum (d0 :: ds)) as a eqn:Ha.
  remember (Z.of_nat (length (d0 :: ds))) as n eqn:Hn.
  assert (0 < n) by (subst n; simpl; lia).
  assert (Hq : d ≤ a `quot` n).
  { rewrite Z.quot_div_nonneg by nia. apply Z.div_le_lower_bound; lia. }
  destruct (a `quot` n =? 0) eqn:H0; [apply Z.eqb_eq in H0; lia|done].
Qed.


Lemma tolerance_and_period_positive_witness :
  0 < min_delta (s_index (reset_index_sort gap_table_unsorted)) ∧
  min_delta (s_index (reset_index_sort gap_table_unsorted))
  ≤ mean_delta (s_index (reset_index_sort gap_table_unsorted)).
Proof.
  pose proof (tolerance_and_period_positive gap_table_unsorted)
    as (Hmin & _ & Hle).
  split; [exact Hmin|].
  apply (Hle (seconds 1)); [by_evaluation|by vm_compute].
Defined.

(** ** Masked frequency axis (lines 203-205, 337-339) *)

Lemma Qc_of_Z_pos (w : Z) : 0 < w → (0 < Qc_of_Z w)%Qc.
Proof.
  intros Hw. rewrite <- Z2Qc_inj_0. exact (proj1 (Z2Qc_inj_lt 0 w) Hw).
Qed.

Lemma fdiv_fl_pos (a w : Z) :
  0 < a → 0 < w → ∃ q, fdiv (fl a) (fl w) = Some q ∧ (0 < q)%Qc.
Proof.
  intros Ha Hw. unfold fdiv, fl.
  pose proof (Qc_of_Z_pos w Hw) as Hwq. pose proof (Qc_of_Z_pos a Ha) as Haq.
  destruct (decide (Qc_of_Z w = 0%Qc)) as [H0|_].
  - rewrite H0 in Hwq. by apply Qclt_not_eq in Hwq.
  - eexists. split; [done|]. apply Qcmult_pos_pos; [done|by apply Qcinv_pos].
Qed.

(** X3: after the low-frequency cut no weight of the frequency axis is zero
    or negative: a frequency above [2/windowsize] is kept, every other one
    becomes [1/windowsize]; a NaN frequency stays NaN. *)
Theorem masked_frequencies_are_positive (w : Z) (freqs : list float) :
  1 ≤ w →
  length (cut_low_freqs w freqs) = length freqs ∧
  Forall2 (λ f f',
      match f with
      | None => f' = NaN
      | Some x =>
          ∃ y, f' = Some y ∧ (0 < y)%Qc ∧
               ((fgtb f (fdiv (fl 2) (fl w)) = true ∧ y = x) ∨
                (fgtb f (fdiv (fl 2) (fl w)) = false ∧
                 f' = fdiv (fl 1) (fl w)))
      end) freqs (cut_low_freqs w freqs).
Proof.
  intros Hw. rewrite cut_low_freqs_spec by lia.
  split; [apply length_spec_masked_axis|].
  unfold spec_masked_axis. apply Forall2_fmap_r, Forall_Forall2_diag, Forall_forall.
  intros f _.
  destruct (fdiv_fl_pos 2 w) as (q2 & Hq2 & Hpos2); [lia..|].
  destruct (fdiv_fl_pos 1 w) as (q1 & Hq1 & Hpos1); [lia..|].
  rewrite Hq2, Hq1. destruct f as [x|]; [|done].
  unfold fleb, fgtb, compose. cbv beta iota.
  destruct (decide (q2 < x)%Qc) as [Hlt|Hge].
  - rewrite (bool_decide_eq_false_2 (x ≤ q2)%Qc)
      by (apply Qclt_not_le; exact Hlt).
    rewrite (bool_decide_eq_true_2 (q2 < x)%Qc) by done.
    assert (Hx : (0 < x)%Qc) by exact (Qclt_trans _ _ _ Hpos2 Hlt).
    unfold feqb, fl. rewrite bool_decide_eq_false_2.
    + exists x. split; [done|]. split; [done|]. by left.
    + rewrite Z2Qc_inj_0. intros ->. exact (Qclt_not_eq _ _ Hx eq_refl).
  - rewrite (bool_decide_eq_true_2 (x ≤ q2)%Qc)
      by (apply Qcnot_lt_le; exact Hge).
    rewrite (bool_decide_eq_false_2 (q2 < x)%Qc) by done.
    unfold feqb, fl. rewrite bool_decide_eq_true_2 by done.
    exists q1. split; [done|]. split; [done|]. by right.
Qed.

Lemma masked_frequencies_are_positive_witness :
  length (cut_low_freqs 12 [fl 0; fq 1 12; fq 1 4; fq 1 2]) = 4%nat.
Proof.
  apply (proj1 (masked_frequencies_are_positive 12
                  [fl 0; fq 1 12; fq 1 4; fq 1 2] ltac:(lia))).
Defined.

(** ** Z-score of a flat energy series (lines 211, 345) *)

Lemma foldl_fadd_replicate (a c : Qc) (n : nat) :
  foldl fadd (Some a) (replicate n (Some c))
  = Some (a + Qc_of_Z (Z.of_nat n) * c)%Qc.
Proof.
  revert a. induction n as [|n IH]; intros a.
  - cbn [replicate foldl]. change (Z.of_nat 0) with 0.
    rewrite Z2Qc_inj_0. f_equal. ring.
  - rewrite Nat2Z.inj_succ, <- Z.add_1_r, Z2Qc_inj_add, Z2Qc_inj_1.
    cbn [replicate foldl]. change (fadd (Some a) (Some c)) with (Some (a + c)%Qc).
    rewrite IH. f_equal. ring.
Qed.

Lemma np_mean_replicate (c : Qc) (n : nat) :
  (0 < n)%nat → np_mean (replicate n (Some c)) = Some c.
Proof.
  intros Hn. unfold np_mean, fsum, fl. rewrite foldl_fadd_replicate.
  rewrite length_replicate. unfold fdiv.
  assert (Hq : Qc_of_Z (Z.of_nat n) ≠ 0%Qc).
  { rewrite <- Z2Qc_inj_0. intros Heq%Z2Qc_inj. lia. }
  rewrite decide_False by done. f_equal. rewrite Z2Qc_inj_0. by field.
Qed.

Lemma interp1d_call_nan (xs ys : list float) (v : float) :
  Forall (λ y, y = NaN) ys → interp1d_call xs ys v = NaN.
Proof.
  intros Hys. unfold interp1d_call.
  set (i := clip _ _ _).
  assert (Hlo : py_index ys (i - 1) = NaN).
  { unfold py_index. destruct (ys !! _) as [y|] eqn:Hy; [|done].
    simpl. rewrite Forall_forall in Hys. apply Hys.
    by eapply list_elem_of_lookup_2. }
  rewrite Hlo. by destruct (fmul _ _).
Qed.

Lemma np_std_replicate `{SciLibs} (c : Qc) (n : nat) :
  np_sqrt (fl 0) = fl 0 → (0 < n)%nat →
  np_std 0 (replicate n (Some c)) = fl 0.
Proof.
  intros Hsqrt Hn.
  unfold np_std. rewrite np_mean_replicate by done.
  rewrite fmap_replicate, length_replicate. cbv beta zeta.
  assert (Hsq : fmul (fabs (fsub (Some c) (Some c)))
                     (fabs (fsub (Some c) (Some c))) = Some 0%Qc).
  { simpl. f_equal. rewrite Qcabs_square. ring. }
  rewrite Hsq. unfold fsum, fl at 1. rewrite Z2Qc_inj_0.
  rewrite foldl_fadd_replicate.
  replace (0 + Qc_of_Z (Z.of_nat n) * 0)%Qc with (Qc_of_Z 0)
    by (rewrite Z2Qc_inj_0; ring).
  replace (fdiv (Some (Qc_of_Z 0)) (fl (Z.of_nat n - 0))) with (fl 0);
    [done|].
  unfold fdiv, fl. rewrite decide_False.
  - f_equal. rewrite Z2Qc_inj_0. unfold Qcdiv. ring.
  - rewrite <- Z2Qc_inj_0. intros Heq%Z2Qc_inj. lia.
Qed.

Lemma zscore_replicate `{SciLibs} (c : Qc) (n : nat) :
  np_sqrt (fl 0) = fl 0 → (0 < n)%nat →
  zscore (replicate n (Some c)) = replicate n NaN.
Proof.
  intros Hsqrt Hn. unfold zscore.
  rewrite np_std_replicate, np_mean_replicate by done.
  rewrite fmap_replicate. f_equal.
Qed.

Lemma stretch_nan `{SciLibs} (timesTS scores : list float) (size : nat)
    (z : list float) :
  Forall (λ y, y = NaN) scores →
  stretch timesTS scores size = inr z → z = replicate size NaN.
Proof.
  intros Hnan (_ & _ & ->)%stretch_inv.
  rewrite <- (length_np_arange size) at 2.
  apply const_fmap. intros i v _. apply interp1d_call_nan.
  apply Forall_fmap, Forall_forall. intros [x y] Hin.
  rewrite merge_sort_Permutation in Hin.
  apply elem_of_zip_r in Hin. simpl.
  rewrite Forall_forall in Hnan. by apply Hnan.
Qed.



(** ** Gap imputer, interpolation mode (lines 304-323, 437-457) *)

Lemma length_interpolate_from (prev : option (timestamp * Qc))
    (pts : list (timestamp * float)) :
  length (interpolate_from prev pts) = length pts.
Proof.
  revert prev. induction pts as [|[x [y|]] pts IH]; intros prev; simpl;
    [done|by rewrite IH..].
Qed.

Lemma interpolate_from_valid (prev : option (timestamp * Qc))
    (pts : list (timestamp * float)) (i : nat) (x : Z) (y : Qc) :
  pts !! i = Some (x, Some y) → interpolate_from prev pts !! i = Some (Some y).
Proof.
  revert prev i. induction pts as [|[x' [y'|]] pts IH]; intros prev [|i] Hi;
    simpl in *; try done.
  - by injection Hi as -> ->.
  - by apply IH.
  - by apply IH.
Qed.

Lemma interpolate_from_gap (prev : option (timestamp * Qc))
    (pts : list (timestamp * float)) (i : nat) (x : Z) :
  pts !! i = Some (x, None) →
  interpolate_from prev pts !! i
  = Some (match last_valid prev (take i pts) with
          | None => NaN
          | Some (x0, y0) =>
              match next_valid (drop (S i) pts) with
              | None => Some y0
              | Some (x1, y1) =>
                  fadd (fmul (fdiv (Some (y1 - y0)%Qc) (fl (x1 - x0)))
                             (fl (x - x0))) (Some y0)
              end
          end).
Proof.
  revert prev i. induction pts as [|[x' [y'|]] pts IH]; intros prev [|i] Hi;
    simpl in *; try done.
  - by apply IH.
  - injection Hi as ->. by destruct prev as [[x0 y0]|].
  - by apply IH.
Qed.

Lemma loc_entity_setitem_scalar (e : entity) (c : string) (v : float) (t : table) :
  loc_entity e (setitem_scalar c v t) = setitem_scalar c v (loc_entity e t).
Proof.
  unfold loc_entity, setitem_scalar.
  induction t as [|r t IH]; [done|].
  rewrite fmap_cons, !filter_cons. change (r_entity (set_col c v r)) with (r_entity r).
  destruct (decide (r_entity r = e)); by rewrite IH.
Qed.

Lemma dropna_all_setitem_scalar (c : string) (q : Qc) (t : table) :
  dropna_all (setitem_scalar c (Some q) t) = setitem_scalar c (Some q) t.
Proof.
  apply filter_all, Forall_fmap, Forall_forall. intros r _ Hna.
  specialize (Hna c (Some q)). simpl in Hna.
  rewrite lookup_insert_eq in Hna. by specialize (Hna eq_refl).
Qed.

Lemma getcol_samples (c : string) (s : slice) (vs : list float) :
  getcol c s = inr vs → zip (s_index s) vs = samples c s.
Proof.
  intros Hg%getcol_inv. unfold samples, s_index.
  induction Hg as [|r v s vs Hr _ IH]; [done|].
  rewrite !fmap_cons. cbn [zip zip_with]. rewrite Hr. f_equal. exact IH.
Qed.

Lemma interpolated_signal_inv (cfg : config) (T : table) (e : entity)
    (dfe : slice) (temperature : list float) :
  interpolated_signal cfg (setitem_scalar (output_item cfg) (fl 0) T) e
    = inr (dfe, temperature) →
  dfe = reset_index_sort
          (loc_entity e (setitem_scalar (output_item cfg) (fl 0) T)) ∧
  is_ok (getcol (input_item cfg) dfe) ∧
  temperature
  = fillna (fl 0) <$> interpolate_from None (samples (input_item cfg) dfe).
Proof.
  set (T0 := setitem_scalar _ _ T).
  assert (Hd : dropna_all (loc_entity e T0) = loc_entity e T0).
  { unfold T0. rewrite loc_entity_setitem_scalar.
    apply dropna_all_setitem_scalar. }
  unfold interpolated_signal. rewrite Hd.
  set (s := reset_index_sort _).
  cbv [mbind result_bind mret result_ret].
  destruct (getcol (input_item cfg) s) as [err|col] eqn:Hcol;
    [intros Hx; discriminate Hx|].
  intros [= <- <-].
  split; [done|]. split; [by eexists|].
  unfold interpolate_time. by rewrite (getcol_samples _ _ _ Hcol).
Qed.

(** X5: in the spectral and clustering transformers no record of an entity
    is dropped before scoring (the output column was just set to 0, so no
    row is missing in every column), the signal has one value per record of
    the entity, none of them missing, and a record that carries a value
    contributes exactly that value. *)
Theorem interpolated_signal_is_complete (cfg : config) (T : table) (e : entity)
    (dfe : slice) (temperature : list float) :
  interpolated_signal cfg (setitem_scalar (output_item cfg) (fl 0) T) e
    = inr (dfe, temperature) →
  dfe = reset_index_sort
          (loc_entity e (setitem_scalar (output_item cfg) (fl 0) T)) ∧
  length dfe = length (loc_entity e T) ∧
  length temperature = length (loc_entity e T) ∧
  Forall (λ v, v ≠ NaN) temperature ∧
  ∀ i ts m y, dfe !! i = Some (ts, m) → m !! input_item cfg = Some (Some y) →
              temperature !! i = Some (Some y).
Proof.
  intros (Hdfe & _ & Htemp)%interpolated_signal_inv.
  assert (Hlen : length dfe = length (loc_entity e T)).
  { rewrite Hdfe, length_reset_index_sort, loc_entity_setitem_scalar.
    unfold setitem_scalar. by rewrite length_fmap. }
  split; [done|]. split; [done|]. split; [|split].
  - rewrite Htemp, length_fmap, length_interpolate_from.
    unfold samples. by rewrite length_fmap.
  - rewrite Htemp. apply Forall_fmap, Forall_forall. by intros [v|] _.
  - intros i ts m y Hi Hm. rewrite Htemp, list_lookup_fmap.
    rewrite (interpolate_from_valid _ _ _ ts y); [done|].
    unfold samples. by rewrite list_lookup_fmap, Hi; simpl; rewrite Hm.
Qed.

Lemma interpolated_signal_is_complete_witness :
  ∃ dfe temperature,
    interpolated_signal wide_config
      (setitem_scalar "score" (fl 0) missing_first_table) "E"
      = inr (dfe, temperature) ∧
    length temperature = 3%nat.
Proof.
  with_value
    (interpolated_signal wide_config
       (setitem_scalar "score" (fl 0) missing_first_table) "E")
    ltac:(fun v =>
      assert (Hs : interpolated_signal wide_config
                     (setitem_scalar "score" (fl 0) missing_first_table) "E"
                   = inr v) by by_evaluation).
  eexists _, _. split; [exact Hs|].
  exact (proj1 (proj2 (proj2
    (interpolated_signal_is_complete wide_config missing_first_table "E"
       _ _ Hs)))).
Defined.

(** X6: the value imputed for a record without a value, by position in the
    time-sorted records of the entity: 0 before the first valid sample, the
    last valid sample after the last one (no extrapolation), and between two
    valid samples at different times the point of the straight line through
    them at the time of the record. *)
Theorem imputed_values (cfg : config) (T : table) (e : entity)
    (dfe : slice) (temperature : list float) (i : nat) (ts : Z)
    (m : gmap string float) :
  interpolated_signal cfg (setitem_scalar (output_item cfg) (fl 0) T) e
    = inr (dfe, temperature) →
  dfe !! i = Some (ts, m) → m !! input_item cfg = Some NaN →
  let pts := samples (input_item cfg) dfe in
  let before := last_valid None (take i pts) in
  let after := next_valid (drop (S i) pts) in
  (before = None → temperature !! i = Some (fl 0)) ∧
  (∀ x0 y0, before = Some (x0, y0) → after = None →
            temperature !! i = Some (Some y0)) ∧
  (∀ x0 y0 x1 y1, before = Some (x0, y0) → after = Some (x1, y1) → x0 ≠ x1 →
     temperature !! i
     = Some (Some (y0 + (y1 - y0) / Qc_of_Z (x1 - x0) * Qc_of_Z (ts - x0))%Qc)).
Proof.
  intros (Hdfe & _ & Htemp)%interpolated_signal_inv Hi Hm pts before after.
  assert (Hpt : pts !! i = Some (ts, NaN)).
  { unfold pts, samples. by rewrite list_lookup_fmap, Hi; simpl; rewrite Hm. }
  pose proof (interpolate_from_gap None pts i ts Hpt) as Hgap.
  fold before after in Hgap. fold pts in Htemp.
  rewrite Htemp, list_lookup_fmap, Hgap. simpl.
  split; [by intros ->|]. split.
  - by intros x0 y0 -> ->.
  - intros x0 y0 x1 y1 -> -> Hne.
    unfold fdiv, fl. rewrite decide_False.
    + cbn [fmul fadd float_lift2 fillna isna]. do 2 f_equal. ring.
    + rewrite <- Z2Qc_inj_0. intros Heq%Z2Qc_inj. lia.
Qed.

Lemma imputed_values_witness :
  ∃ dfe temperature,
    interpolated_signal wide_config
      (setitem_scalar "score" (fl 0) missing_first_table) "E"
      = inr (dfe, temperature) ∧
    temperature !! 0%nat = Some (fl 0).
Proof.
  with_value
    (interpolated_signal wide_config
       (setitem_scalar "score" (fl 0) missing_first_table) "E")
    ltac:(fun v =>
      assert (Hs : interpolated_signal wide_config
                     (setitem_scalar "score" (fl 0) missing_first_table) "E"
                   = inr v) by by_evaluation).
  eexists _, _. split; [exact Hs|].
  refine (proj1 (imputed_values wide_config missing_first_table "E"
                   _ _ 0 0 _ Hs _ _) _); by_evaluation.
Defined.

(** ** Realignment on distinct timestamps (lines 353-372, 491-508) *)

Lemma take_while_head_fails {A : Type} (P : A → Prop) `{!∀ x, Decision (P x)}
    (l : list A) :
  Forall (λ x, ¬ P x) l → take_while P l = [].
Proof. destruct 1 as [|x l Hx _]; [done|]. simpl. by rewrite decide_False. Qed.

Lemma length_take_while_lt (rk : list Z) (t : Z) (i : nat) :
  StronglySorted Z.lt rk → rk !! i = Some t →
  length (take_while (λ r, r < t) rk) = i.
Proof.
  intros Hs. revert i. induction Hs as [|a rk Hs IH Ha]; intros [|i] Hi;
    simpl in Hi; try done.
  - injection Hi as ->. simpl. rewrite decide_False by lia. done.
  - assert (a < t).
    { rewrite Forall_forall in Ha. apply Ha. by eapply list_elem_of_lookup_2. }
    simpl. rewrite decide_True by done. simpl. by rewrite (IH i).
Qed.

Lemma length_take_while_le (rk : list Z) (t : Z) (i : nat) :
  StronglySorted Z.lt rk → rk !! i = Some t →
  length (take_while (λ r, r ≤ t) rk) = S i.
Proof.
  intros Hs. revert i. induction Hs as [|a rk Hs IH Ha]; intros [|i] Hi;
    simpl in Hi; try done.
  - injection Hi as ->. simpl. rewrite decide_True by lia.
    rewrite take_while_head_fails; [done|].
    eapply Forall_impl; [exact Ha|]. intros r Hr. simpl in *. lia.
  - assert (a < t).
    { rewrite Forall_forall in Ha. apply Ha. by eapply list_elem_of_lookup_2. }
    simpl. rewrite decide_True by lia. simpl. by rewrite (IH i).
Qed.

Lemma asof_nearest_exact (rk : list Z) (tol t : Z) (i : nat) :
  StronglySorted Z.lt rk → rk !! i = Some t → 0 ≤ tol →
  asof_nearest rk tol t = Some i.
Proof.
  intros Hs Hi Htol. unfold asof_nearest, asof_backward, asof_forward.
  rewrite (length_take_while_le rk t i), (length_take_while_lt rk t i) by done.
  rewrite Hi. rewrite !decide_True by lia. rewrite Hi. simpl.
  by replace (t - t <=? t - t) with true by (symmetry; apply Z.leb_le; lia).
Qed.

Lemma Sorted_NoDup_strict (l : list Z) :
  Sorted Z.le l → NoDup l → StronglySorted Z.lt l.
Proof.
  intros Hs%Sorted_StronglySorted; [|apply _].
  induction Hs as [|a l Hs IH Ha]; intros Hnd; [constructor|].
  apply NoDup_cons in Hnd as [Hni Hnd]. constructor; [by apply IH|].
  rewrite Forall_forall in Ha |- *. intros r Hr.
  specialize (Ha r Hr). assert (r ≠ a) by (by intros ->). lia.
Qed.

Lemma s_index_reset_index_sort_Permutation (t : table) :
  s_index (reset_index_sort t) ≡ₚ r_ts <$> t.
Proof.
  unfold s_index, reset_index_sort. rewrite merge_sort_Permutation.
  by rewrite <- list_fmap_compose.
Qed.

Lemma reset_index_sort_sorted_input (t : table) :
  StronglySorted Z.lt (r_ts <$> t) →
  reset_index_sort t = (λ r, (r_ts r, r_cols r)) <$> t.
Proof.
  intros Hs. unfold reset_index_sort.
  set (l := (λ r, (r_ts r, r_cols r)) <$> t).
  assert (Hl : StronglySorted Z.lt (fst <$> l)).
  { unfold l. by rewrite <- list_fmap_compose. }
  clearbody l. clear Hs.
  assert (Hsl : StronglySorted ts_le l).
  { induction l as [|a l IH]; [constructor|].
    rewrite fmap_cons in Hl. apply StronglySorted_inv in Hl as [Hl Ha].
    constructor; [by apply IH|].
    rewrite Forall_fmap in Ha. eapply Forall_impl; [exact Ha|].
    intros r Hr. unfold ts_le. simpl in Hr. lia. }
  apply (StronglySorted_unique_strong ts_le);
    [|apply StronglySorted_merge_sort; apply _|done
     |apply merge_sort_Permutation].
  intros x1 x2 H1 H2 H12 H21. rewrite merge_sort_Permutation in H1.
  assert (Heq : x1.1 = x2.1) by (unfold ts_le in *; lia).
  clear H12 H21 Hsl. induction l as [|a l IH]; [by apply elem_of_nil in H1|].
  rewrite fmap_cons in Hl. apply StronglySorted_inv in Hl as [Hl Ha].
  rewrite Forall_fmap, Forall_forall in Ha.
  apply elem_of_cons in H1 as [->|H1], H2 as [->|H2]; [done| | |by apply IH].
  - specialize (Ha _ H2). simpl in Ha. lia.
  - specialize (Ha _ H1). simpl in Ha. lia.
Qed.

(** X7: in the spectral and clustering transformers, when the records of an
    entity have pairwise different timestamps, every record finds its own
    position of the scored series within the tolerance, so the values
    written to the entity are exactly the stretched scores in time order,
    none missing because of the join; when moreover the records are stored
    in increasing time order, position [i] of the scored series is record
    [i] of the entity in the table. *)
Theorem realignment_is_exact_on_distinct_times `{SciLibs} (x : extractor)
    (cfg : config) (T : table) (e : entity) (z : list float) :
  x ≠ GapPresence →
  NoDup (r_ts <$> loc_entity e T) →
  body_of x cfg (setitem_scalar (output_item cfg) (fl 0) T) e = inr (Some z) →
  ∃ dfe temperature,
    interpolated_signal cfg (setitem_scalar (output_item cfg) (fl 0) T) e
      = inr (dfe, temperature) ∧
    stretched_score (features_of x) (windowsize cfg) temperature = inr z ∧
    length z = length (loc_entity e T) ∧
    (StronglySorted Z.lt (r_ts <$> loc_entity e T) →
     s_index dfe = r_ts <$> loc_entity e T).
Proof.
  intros Hx Hnd Hbody.
  set (T0 := setitem_scalar (output_item cfg) (fl 0) T) in *.
  assert (Hout : Forall (λ r, is_Some (r_cols r !! output_item cfg)) T0).
  { apply Forall_fmap, Forall_forall. intros r _. simpl.
    rewrite lookup_insert_eq. by eexists. }
  apply body_of_inv in Hbody
    as (dfe & temperature & scoreI & Hsig & _ & Hst & Hlen & Hz); [|done].
  assert (Hsig' : interpolated_signal cfg T0 e = inr (dfe, temperature))
    by (by destruct x).
  exists dfe, temperature. split; [done|].
  apply interpolated_signal_inv in Hsig' as (Hdfe & _ & _).
  fold T0 in Hdfe. rewrite <- Hdfe in Hz.
  assert (Hts : r_ts <$> loc_entity e T0 = r_ts <$> loc_entity e T).
  { unfold T0. rewrite loc_entity_setitem_scalar. unfold setitem_scalar.
    by rewrite <- list_fmap_compose. }
  assert (Hstrict : StronglySorted Z.lt (s_index dfe)).
  { apply Sorted_NoDup_strict.
    - rewrite Hdfe. apply reset_index_sort_sorted.
    - rewrite Hdfe, s_index_reset_index_sort_Permutation. by rewrite Hts. }
  assert (Hpos : 0 ≤ min_delta (s_index dfe)).
  { rewrite Hdfe. pose proof (min_delta_pos _ (reset_index_sort_sorted
                                                 (loc_entity e T0))). lia. }
  assert (Hzs : z = scoreI).
  { rewrite Hz. apply list_eq. intros i. rewrite list_lookup_fmap.
    destruct (dfe !! i) as [r|] eqn:Hr; simpl.
    - assert (Hi : s_index dfe !! i = Some r.1).
      { unfold s_index. by rewrite list_lookup_fmap, Hr. }
      unfold merged_value. rewrite (asof_nearest_exact _ _ _ i) by done.
      apply lookup_lt_Some in Hr. rewrite <- Hlen in Hr.
      apply lookup_lt_is_Some in Hr as [v Hv]. by rewrite Hv.
    - apply lookup_ge_None in Hr. rewrite <- Hlen in Hr.
      symmetry. by apply lookup_ge_None. }
  clear Hz. subst z. split; [done|]. split.
  - rewrite Hlen, Hdfe, length_reset_index_sort.
    by rewrite <- (length_fmap r_ts), Hts, length_fmap.
  - intros Hsorted. rewrite Hdfe.
    rewrite reset_index_sort_sorted_input by (by rewrite Hts).
    unfold s_index. rewrite <- list_fmap_compose. exact Hts.
Qed.

Lemma realignment_is_exact_on_distinct_times_witness :
  ∃ z dfe temperature,
    @body_of exact_libs RawSpectral gap_config
       (setitem_scalar "score" (fl 0) decade_table) "E" = inr (Some z) ∧
    interpolated_signal gap_config
      (setitem_scalar "score" (fl 0) decade_table) "E"
      = inr (dfe, temperature) ∧
    @stretched_score exact_libs (@features_of exact_libs RawSpectral) 1
      temperature = inr z.
Proof.
  with_value
    (@body_of exact_libs RawSpectral gap_config
       (setitem_scalar "score" (fl 0) decade_table) "E")
    ltac:(fun v =>
      lazymatch v with
      | Some ?z =>
          assert (Hb : @body_of exact_libs RawSpectral gap_config
                         (setitem_scalar "score" (fl 0) decade_table) "E"
                       = inr (Some z)) by by_evaluation
      end).
  destruct (@realignment_is_exact_on_distinct_times exact_libs RawSpectral
              gap_config decade_table "E" _ ltac:(done)
              ltac:(apply (bool_decide_unpack _); vm_compute; exact I) Hb)
    as (dfe & temperature & Hsig & Hst & _).
  eexists _, dfe, temperature. split; [exact Hb|]. split; [exact Hsig|exact Hst].
Defined.

(** ** Where an exception of [execute] can come from *)


















(** ** A missing input column *)


Lemma Forall_reset_index_sort (P : gmap string float → Prop) (t : table) :
  Forall (λ r, P (r_cols r)) t → Forall (λ r : srow, P r.2) (reset_index_sort t).
Proof.
  intros Ht. unfold reset_index_sort. rewrite merge_sort_Permutation.
  by apply Forall_fmap.
Qed.





(** ** Tables with few records per entity *)

Lemma getcol_ok (c : string) (s : slice) :
  Forall (λ r : srow, is_Some (r.2 !! c)) s →
  ∃ vs, getcol c s = inr vs ∧ length vs = length s.
Proof.
  induction 1 as [|r s [v Hv] _ (vs & Hvs & Hlen)]; [by exists []|].
  exists (v :: vs). simpl. rewrite Hv, Hvs. split; [done|]. simpl. by rewrite Hlen.
Qed.




(** ** The entity loop, entity by entity (lines 160-237, 302-372, 435-508) *)

Lemma run_execute_of `{SciLibs} (x : extractor) (cfg : config) (T : table) :
  run (execute_of x) cfg T
  = entity_fold (body_of x) cfg (entities_of T)
      (setitem_scalar (output_item cfg) (fl 0) T).
Proof.
  unfold run.
  rewrite execute_of_with, (execute_with_run _ _ _ _ T)
    by apply lookup_singleton_eq.
  destruct (entity_fold _ _ _ _) as [err|T']; [done|].
  by rewrite lookup_insert_eq.
Qed.

Lemma loc_setitem_loc_entity (e : entity) (c : string) (z : list float)
    (t t1 : table) :
  loc_setitem e c z t = inr t1 →
  loc_entity e t1 = zip_with (λ r v, set_col c v r) (loc_entity e t) z.
Proof.
  revert z t1. induction t as [|r t IH]; intros z t1; simpl.
  - destruct z; [by intros [= <-]|intros Hx; discriminate Hx].
  - unfold loc_entity. rewrite filter_cons.
    destruct (decide (r_entity r = e)) as [He|He].
    + destruct z as [|v z]; [intros Hx; discriminate Hx|].
      cbv [mbind result_bind mret result_ret].
      destruct (loc_setitem e c z t) as [err|t2] eqn:Ht2;
        [intros Hx; discriminate Hx|].
      intros [= <-]. rewrite filter_cons.
      change (r_entity (set_col c v r)) with (r_entity r).
      rewrite decide_True by done. simpl. f_equal. by apply IH.
    + cbv [mbind result_bind mret result_ret].
      destruct (loc_setitem e c z t) as [err|t2] eqn:Ht2;
        [intros Hx; discriminate Hx|].
      intros [= <-]. rewrite filter_cons, decide_False by done. by apply IH.
Qed.

Lemma entity_fold_entity `{SciLibs} (x : extractor) (cfg : config)
    (ents : list entity) (t t' : table) (e : entity) :
  NoDup ents →
  entity_fold (body_of x) cfg ents t = inr t' →
  e ∈ ents →
  loc_entity e t'
  = match body_of x cfg t e with
    | inr (Some z) =>
        zip_with (λ r v, set_col (output_item cfg) v r) (loc_entity e t) z
    | _ => loc_entity e t
    end.
Proof.
  intros Hnd. revert t. induction Hnd as [|e0 ents Hni Hnd IH]; intros t Hfold He;
    [by apply elem_of_nil in He|].
  simpl in Hfold.
  destruct (body_of x cfg t e0) as [err|[z|]] eqn:Hb; [discriminate Hfold| |].
  - destruct (loc_setitem e0 (output_item cfg) z t) as [err|t1] eqn:Ht1;
      [discriminate Hfold|].
    apply elem_of_cons in He as [->|He].
    + rewrite Hb.
      rewrite <- (loc_setitem_loc_entity _ _ _ _ _ Ht1).
      apply (Forall2_row_upd_loc_entity ents (output_item cfg)); [done|].
      by eapply entity_fold_upd.
    + assert (Hloc : loc_entity e t1 = loc_entity e t).
      { apply loc_setitem_inv in Ht1 as (_ & Hupd & _).
        apply (Forall2_row_upd_loc_entity [e0] (output_item cfg)); [|done].
        intros ->%list_elem_of_singleton. done. }
      rewrite (IH t1 Hfold He), Hloc.
      by rewrite (body_of_local x cfg t1 t e Hloc).
  - apply elem_of_cons in He as [->|He]; [|by apply IH].
    rewrite Hb.
    apply (Forall2_row_upd_loc_entity ents (output_item cfg)); [done|].
    by eapply entity_fold_upd.
Qed.

(** X11: [execute] scores the entities independently of one another.  The
    records of an entity in the result are its records of the
    zero-initialised copy, the output column set record by record to the
    entity's score array when the entity is scored and left at 0 when it is
    skipped; and that array is computed from the entity's own records only:
    it is the same on every table that has the same records for the entity,
    so the scores written earlier for other entities have no influence
    (for the clustering transformer: given the outcome of the cluster
    scorer on the entity's windows). *)
Theorem entities_are_scored_independently `{SciLibs} (x : extractor)
    (cfg : config) (T T' : table) (e : entity) :
  run (execute_of x) cfg T = inr T' →
  let T0 := setitem_scalar (output_item cfg) (fl 0) T in
  (∀ t, loc_entity e t = loc_entity e T0 →
        body_of x cfg t e = body_of x cfg T0 e) ∧
  loc_entity e T'
  = match body_of x cfg T0 e with
    | inr (Some z) =>
        zip_with (λ r v, set_col (output_item cfg) v r) (loc_entity e T0) z
    | _ => loc_entity e T0
    end.
Proof.
  rewrite run_execute_of. intros Hfold T0. fold T0 in Hfold.
  split; [intros t Ht; by apply body_of_local|].
  destruct (decide (e ∈ entities_of T)) as [He|He].
  - by apply (entity_fold_entity x cfg (entities_of T) T0 T' e
                (NoDup_entities_of T)).
  - assert (Hnil : loc_entity e T0 = []).
    { apply filter_none, Forall_fmap, Forall_forall. intros r Hr Her.
      apply He, elem_of_entities_of. by exists r. }
    assert (Hloc : loc_entity e T' = loc_entity e T0).
    { apply (Forall2_row_upd_loc_entity (entities_of T) (output_item cfg));
        [done|]. by eapply entity_fold_upd. }
    rewrite Hloc, Hnil. by destruct (body_of x cfg T0 e) as [?|[?|]].
Qed.

Lemma entities_are_scored_independently_witness :
  ∃ T' z,
    run (@execute_of exact_libs GapPresence) gap_config gap_table_sorted
      = inr T' ∧
    @body_of exact_libs GapPresence gap_config
      (setitem_scalar "score" (fl 0) gap_table_sorted) "E" = inr (Some z) ∧
    loc_entity "E" T'
    = zip_with (λ r v, set_col "score" v r)
        (loc_entity "E" (setitem_scalar "score" (fl 0) gap_table_sorted)) z.
Proof.
  with_value (run (@execute_of exact_libs GapPresence) gap_config
                gap_table_sorted)
    ltac:(fun T' =>
  with_value (@body_of exact_libs GapPresence gap_config
                (setitem_scalar "score" (fl 0) gap_table_sorted) "E")
    ltac:(fun v => lazymatch v with Some ?z =>
      assert (Hrun : run (@execute_of exact_libs GapPresence) gap_config
                       gap_table_sorted = inr T') by by_evaluation;
      assert (Hb : @body_of exact_libs GapPresence gap_config
                     (setitem_scalar "score" (fl 0) gap_table_sorted) "E"
                   = inr (Some z)) by by_evaluation;
      exists T', z
    end)).
  split; [exact Hrun|]. split; [exact Hb|].
  pose proof (proj2 (@entities_are_scored_independently exact_libs GapPresence
                       gap_config gap_table_sorted _ "E" Hrun)) as Hloc.
  cbv zeta in Hloc. change (output_item gap_config) with "score"%string in Hloc.
  rewrite Hb in Hloc. exact Hloc.
Defined.

(** ** Earlier contents of the output column (lines 156, 298, 432) *)

Lemma setitem_scalar_overwrites (c : string) (v : float) (T T2 : table) :
  Forall2 (λ r r', r_key r = r_key r' ∧
                   ∀ c', c' ≠ c → r_cols r !! c' = r_cols r' !! c') T T2 →
  setitem_scalar c v T = setitem_scalar c v T2 ∧
  entities_of T = entities_of T2.
Proof.
  intros Hrel. split.
  - induction Hrel as [|r r' T T2 [Hk Hc] _ IH]; [done|].
    unfold setitem_scalar in *. rewrite !fmap_cons, IH. f_equal.
    destruct r as [e ts m], r' as [e' ts' m']. unfold set_col. simpl in *.
    injection Hk as -> ->. f_equal. apply map_eq. intros c'.
    destruct (decide (c' = c)) as [->|Hne].
    + by rewrite !lookup_insert_eq.
    + rewrite !lookup_insert_ne by done. by apply Hc.
  - unfold entities_of. f_equal.
    induction Hrel as [|r r' T T2 [Hk _] _ IH]; [done|].
    rewrite !fmap_cons, IH. f_equal. by injection Hk.
Qed.

Lemma run_agree `{SciLibs} (x : extractor) (cfg : config) (T T2 : table) :
  Forall2 (λ r r', r_key r = r_key r' ∧
                   ∀ c, c ≠ output_item cfg → r_cols r !! c = r_cols r' !! c)
          T T2 →
  run (execute_of x) cfg T = run (execute_of x) cfg T2.
Proof.
  intros Hrel. rewrite !run_execute_of.
  by destruct (setitem_scalar_overwrites (output_item cfg) (fl 0) T T2 Hrel)
    as [-> ->].
Qed.

Lemma run_result_agrees `{SciLibs} (x : extractor) (cfg : config)
    (T T' : table) :
  run (execute_of x) cfg T = inr T' →
  Forall2 (λ r r', r_key r = r_key r' ∧
                   ∀ c, c ≠ output_item cfg → r_cols r !! c = r_cols r' !! c)
          T T'.
Proof.
  rewrite run_execute_of. intros Hfold%entity_fold_upd.
  pose proof (setitem_scalar_upd (output_item cfg) (fl 0) T) as Hinit.
  revert Hfold Hinit. generalize (setitem_scalar (output_item cfg) (fl 0) T).
  generalize (entities_of T).
  intros es T0 Hfold Hinit. revert T' Hfold.
  induction Hinit as [|r r0 T T0 Hr _ IH]; intros T' Hfold.
  - apply Forall2_nil_inv_l in Hfold as ->. constructor.
  - apply Forall2_cons_inv_l in Hfold as (r' & T'' & Hr' & Hfold & ->).
    constructor; [|by apply IH]. subst r0.
    destruct Hr' as [->|(_ & v & ->)]; (split; [done|]); intros c Hc; simpl;
      rewrite ?lookup_insert_ne by done; done.
Qed.

(** X12: what the output column holds before [execute] has no influence on
    the result of the gap-presence and spectral transformers: two tables
    with the same keys that agree on every other column give the same
    result (or the same exception).  In particular, running a transformer
    on its own result reproduces that result.  (The cluster scorer of the
    third transformer is randomised, so no such statement is made for it.) *)
Theorem output_column_is_overwritten `{SciLibs} (x : extractor) (cfg : config)
    (T T2 : table) :
  x ≠ Clustering →
  Forall2 (λ r r', r_key r = r_key r' ∧
                   ∀ c, c ≠ output_item cfg → r_cols r !! c = r_cols r' !! c)
          T T2 →
  run (execute_of x) cfg T = run (execute_of x) cfg T2 ∧
  ∀ T', run (execute_of x) cfg T = inr T' → run (execute_of x) cfg T' = inr T'.
Proof.
  intros _ Hrel. split; [by apply run_agree|].
  intros T' Hrun. rewrite <- Hrun. symmetry.
  apply run_agree. by apply (run_result_agrees x).
Qed.

Lemma output_column_is_overwritten_witness :
  run (@execute_of exact_libs GapPresence) gap_config gap_table_sorted
  = run (@execute_of exact_libs GapPresence) gap_config
      (setitem_scalar "score" (fl 9) gap_table_sorted).
Proof.
  apply (@output_column_is_overwritten exact_libs GapPresence gap_config
           gap_table_sorted (setitem_scalar "score" (fl 9) gap_table_sorted));
    [done|].
  repeat constructor; intros c Hc; simpl; by rewrite lookup_insert_ne.
Defined.

(** ** The stretching step of [ASAnomalyHandler.score] (lines 96-106) *)

(** X13: the time axis that [ASAnomalyHandler.score] builds for the scores
    never has as many points as there are scores (it has one or two more),
    so the interpolator of line 105 raises [ValueError] for every signal and
    every score array: the stretching step of the scaffold class cannot
    succeed, whatever the scorer returns. *)
Theorem handler_stretch_never_fits `{SciLibs} (temperature pred_score : list float) :
  (∃ timesTS, handler_timesTS temperature pred_score = inr timesTS ∧
     (length timesTS = length pred_score + 1 ∨
      length timesTS = length pred_score + 2)%nat) ∧
  handler_stretch temperature pred_score
  = inl (ValueError "x and y arrays must be equal in length").
Proof.
  unfold handler_stretch, handler_timesTS, stretchFactor.
  set (n := Z.of_nat (length temperature)).
  set (m := Z.of_nat (length pred_score)).
  set (num := n - (n - m) `div` 2 * 2 + 1).
  assert (Hnum : num = m + 1 ∨ num = m + 2).
  { unfold num. pose proof (Z.div_mod (n - m) 2 ltac:(lia)).
    pose proof (Z.mod_pos_bound (n - m) 2 ltac:(lia)). lia. }
  assert (Hm : 0 ≤ m) by (unfold m; lia).
  replace (num <? 0) with false by (symmetry; apply Z.ltb_ge; lia).
  assert (Hlen : (length (np_linspace (fl ((n - m) `div` 2))
                            (fl (n - (n - m) `div` 2 + 1)) (Z.to_nat num))
                  = length pred_score + 1 ∨
                  length (np_linspace (fl ((n - m) `div` 2))
                            (fl (n - (n - m) `div` 2 + 1)) (Z.to_nat num))
                  = length pred_score + 2)%nat).
  { rewrite length_np_linspace. unfold m in Hnum. lia. }
  split; [eexists; split; [reflexivity|exact Hlen]|].
  cbv [mbind result_bind mret result_ret]. unfold stretch, interp1d.
  rewrite bool_decide_eq_true_2 by lia. done.
Qed.

(** ** Window centres of the clustering transformer (line 481) *)

(** X14: the window centres are equally spaced from [windowsize // 2] on,
    with a step of [(size - 2 (windowsize // 2) + 1) / (size - windowsize)],
    which is strictly more than one sample although consecutive windows
    start one sample apart: the time axis of the cluster scores is longer
    than the span of the windows. *)
Theorem KMeans_centers_spacing (w : Z) (size : nat) :
  1 ≤ w → w < Z.of_nat size →
  let step := (Qc_of_Z (Z.of_nat size - 2 * (w `div` 2) + 1)
               / Qc_of_Z (Z.of_nat size - w))%Qc in
  (1 < step)%Qc ∧
  ∀ i : nat, Z.of_nat i < Z.of_nat size - w + 1 →
    KMeans_centers w size !! i
    = Some (Some (Qc_of_Z (w `div` 2) + Qc_of_Z (Z.of_nat i) * step)%Qc).
Proof.
  intros Hw Hsize step.
  set (n := Z.of_nat size) in *. set (h := w `div` 2) in *.
  assert (Hh : 2 * h ≤ w).
  { unfold h. pose proof (Z.div_mod w 2 ltac:(lia)).
    pose proof (Z.mod_pos_bound w 2 ltac:(lia)). lia. }
  assert (Hb : (0 < Qc_of_Z (n - w))%Qc) by (apply Qc_of_Z_pos; lia).
  assert (Hbne : Qc_of_Z (n - w) ≠ 0%Qc).
  { intros Heq. rewrite Heq in Hb. by apply Qclt_not_eq in Hb. }
  split.
  - unfold step, Qcdiv.
    replace 1%Qc with (Qc_of_Z (n - w) * / Qc_of_Z (n - w))%Qc
      by (by apply Qcmult_inv_r).
    apply Qcmult_lt_compat_r; [by apply Qcinv_pos|].
    apply (proj1 (Z2Qc_inj_lt _ _)). lia.
  - intros i Hi. unfold KMeans_centers, np_linspace. fold n h.
    set (num := Z.to_nat (n - w + 1)).
    assert (Hnum : Z.of_nat num = n - w + 1) by (unfold num; lia).
    rewrite Hnum.
    replace (0 <? n - w + 1 - 1) with true by (symmetry; apply Z.ltb_lt; lia).
    replace (1 <? n - w + 1) with true by (symmetry; apply Z.ltb_lt; lia).
    replace (n - w + 1 - 1) with (n - w) by lia.
    assert (Hstep : fdiv (fsub (fl (n - h + 1)) (fl h)) (fl (n - w))
                    = Some step).
    { unfold fdiv, fsub, float_lift2, fl. rewrite decide_False by done.
      f_equal. unfold step. rewrite <- Z2Qc_inj_sub. do 2 f_equal. lia. }
    rewrite Hstep.
    destruct (decide (i = pred num)) as [->|Hne].
    + rewrite list_lookup_insert_eq
        by (rewrite length_fmap, length_seq; lia).
      unfold fl. do 2 f_equal.
      replace (Z.of_nat (pred num)) with (n - w) by lia.
      unfold step. rewrite !Z2Qc_inj_add, !Z2Qc_inj_sub, !Z2Qc_inj_mul,
        Z2Qc_inj_1, Z2Qc_inj_2 in *. by field.
    + rewrite list_lookup_insert_ne by done.
      rewrite list_lookup_fmap, lookup_seq_lt by lia. simpl.
      do 2 f_equal. ring.
Qed.

Lemma KMeans_centers_spacing_witness :
  KMeans_centers 3 5 !! 1%nat
  = Some (Some (Qc_of_Z 1 + Qc_of_Z 1 * (Qc_of_Z 4 / Qc_of_Z 2))%Qc).
Proof.
  apply (proj2 (KMeans_centers_spacing 3 5 ltac:(lia) ltac:(lia)) 1%nat).
  lia.
Defined.

(** ** Gap-presence scores of a signal without gaps (lines 198-237) *)

Lemma cut_low_freqs_not_nan `{SciLibs} (w : Z) (freqs : list float) :
  1 ≤ w → Forall (λ f, f ≠ NaN) freqs →
  Forall (λ f, f ≠ NaN) (cut_low_freqs w freqs).
Proof.
  intros Hw Hf. rewrite cut_low_freqs_spec by lia. unfold spec_masked_axis.
  apply Forall_fmap. eapply Forall_impl; [exact Hf|]. intros f Hne.
  unfold compose. cbv beta zeta.
  destruct (fdiv_fl_pos 1 w) as (q1 & -> & _); [lia..|].
  destruct (fleb f _); destruct (feqb _ _); done.
Qed.

Lemma zip_with_fmul_zero (axis : list float) :
  Forall (λ f, f ≠ NaN) axis →
  zip_with fmul (replicate (length axis) (fl 0)) axis
  = replicate (length axis) (fl 0).
Proof.
  induction 1 as [|[a|] axis Ha _ IH]; [done| |done].
  simpl. rewrite IH. f_equal. unfold fl. f_equal.
  rewrite Z2Qc_inj_0. ring.
Qed.

Lemma fsum_zero (n : nat) : fsum (replicate n (fl 0)) = fl 0.
Proof.
  unfold fsum, fl. rewrite foldl_fadd_replicate. f_equal.
  rewrite Z2Qc_inj_0. ring.
Qed.

Lemma energy_of_silence (Sx : list (list float)) (axis : list float)
    (nseg j : nat) :
  Forall (λ r, r = replicate nseg (fl 0)) Sx →
  Forall (λ f, f ≠ NaN) axis → length Sx = length axis → (j < nseg)%nat →
  spec_energy Sx axis j = fl 0.
Proof.
  intros HSx Haxis Hlen Hj. unfold spec_energy, spec_column.
  rewrite (const_fmap _ Sx (fl 0)).
  - rewrite Hlen, zip_with_fmul_zero by done. apply fsum_zero.
  - intros i r Hr. rewrite Forall_forall in HSx.
    rewrite (HSx r) by (by eapply list_elem_of_lookup_2).
    by rewrite lookup_replicate_2.
Qed.

(** X15: in the gap-presence transformer, when the spectrogram of an
    entity's gap signal is zero in every segment and frequency bin (as it
    is for a signal without gaps, which is 0 throughout), the energies are
    all 0, their z-scores are 0/0, and every record of the entity gets NaN,
    not 0. *)
Theorem silent_gap_signal_scores_are_missing `{SciLibs} (cfg : config)
    (t : table) (e : entity) (dfe : slice) (temperature : list float)
    (sg : spectrogram_result) (nseg : nat) (z : list float) :
  1 ≤ windowsize cfg → np_sqrt (fl 0) = fl 0 →
  Forall (λ r, is_Some (r_cols r !! output_item cfg)) t →
  gap_signal cfg t e = inr (dfe, temperature) →
  signal_spectrogram temperature 1 (windowsize cfg)
    (init_windowoverlap (windowsize cfg)) = inr sg →
  length (sg_Sx sg) = length (sg_freqs sg) →
  Forall (λ f, f ≠ NaN) (sg_freqs sg) →
  sg_Sx sg ≠ [] → (0 < nseg)%nat →
  Forall (λ r, r = replicate nseg (fl 0)) (sg_Sx sg) →
  body_of GapPresence cfg t e = inr (Some z) →
  NoData_features (windowsize cfg) temperature
    = inr (sg_times sg, replicate nseg NaN) ∧
  z = replicate (length (loc_entity e t)) NaN.
Proof.
  intros Hw Hsqrt Hout Hsig Hsg Hlen Hfreqs Hne Hnseg Hzero Hbody.
  assert (Haxis : Forall (λ f, f ≠ NaN)
                    (cut_low_freqs (windowsize cfg) (sg_freqs sg)))
    by (by apply cut_low_freqs_not_nan).
  assert (Hlen' : length (sg_Sx sg)
                  = length (cut_low_freqs (windowsize cfg) (sg_freqs sg))).
  { rewrite cut_low_freqs_spec by lia. by rewrite length_spec_masked_axis. }
  assert (Hfeat : NoData_features (windowsize cfg) temperature
                  = inr (sg_times sg, replicate nseg NaN)).
  { unfold NoData_features. rewrite Hsg.
    cbv [mbind result_bind mret result_ret].
    rewrite np_dot_transpose by done.
    destruct (sg_Sx sg) as [|r0 Sx] eqn:HSx; [done|].
    assert (Hr0 : length r0 = nseg).
    { apply Forall_cons in Hzero as [-> _]. by rewrite length_replicate. }
    rewrite Hr0. do 2 f_equal.
    rewrite (const_fmap _ (seq 0 nseg) (fl 0)).
    - rewrite length_seq. unfold fl. by apply zscore_replicate.
    - intros i j Hj%lookup_seq. apply (energy_of_silence _ _ nseg); try done.
      lia. }
  split; [done|].
  apply body_of_inv in Hbody
    as (dfe' & temperature' & scoreI & Hsig' & _ & Hst & _ & ->); [|done].
  simpl in Hsig', Hst. rewrite Hsig in Hsig'. injection Hsig' as <- <-.
  unfold stretched_score in Hst. rewrite Hfeat in Hst.
  cbv [mbind result_bind] in Hst.
  apply stretch_nan in Hst;
    [|apply Forall_forall; intros y Hy; by apply elem_of_replicate_inv in Hy].
  rewrite <- (length_reset_index_sort (loc_entity e t)).
  apply const_fmap. intros i r _. unfold merged_value.
  destruct (asof_nearest _ _ _) as [j|]; [|done].
  rewrite Hst. destruct (replicate _ _ !! j) as [v|] eqn:Hv; [|done].
  simpl. by apply lookup_replicate_1 in Hv as [-> _].
Qed.

Lemma silent_gap_signal_scores_are_missing_witness :
  @body_of exact_libs GapPresence gap_config
    (setitem_scalar "score" (fl 0) regular_table) "E"
  = inr (Some (replicate 4 NaN)).
Proof.
  with_value (gap_signal gap_config
                (setitem_scalar "score" (fl 0) regular_table) "E")
    ltac:(fun sv => lazymatch sv with (?dfe, ?temperature) =>
  with_value (spectrogram_nperseg1 temperature 1 1 0)
    ltac:(fun sg =>
  with_value (@body_of exact_libs GapPresence gap_config
                (setitem_scalar "score" (fl 0) regular_table) "E")
    ltac:(fun v => lazymatch v with Some ?z =>
      assert (Hb : @body_of exact_libs GapPresence gap_config
                     (setitem_scalar "score" (fl 0) regular_table) "E"
                   = inr (Some z)) by by_evaluation;
      destruct (@silent_gap_signal_scores_are_missing exact_libs gap_config
                  (setitem_scalar "score" (fl 0) regular_table) "E"
                  dfe temperature sg 4 z) as [_ Hz];
        [done
        |apply (bool_decide_unpack _); vm_compute; exact I
        |apply (bool_decide_unpack _); vm_compute; exact I
        |by_evaluation
        |by_evaluation
        |reflexivity
        |apply (bool_decide_unpack _); vm_compute; exact I
        |done
        |lia
        |apply (bool_decide_unpack _); vm_compute; exact I
        |exact Hb
        |rewrite Hb, Hz; reflexivity]
    end)) end).
Defined.

(** ** Size of the presence grid (lines 175-194) *)

Lemma resample_last_edge_tight (first last freq : Z) :
  0 < freq → resample_last_edge first last freq - freq ≤ last.
Proof.
  intros Hf. unfold resample_last_edge.
  pose proof (Z.mod_pos_bound (last - normalize first) freq Hf).
  case_match; lia.
Qed.

Lemma resample_bucket_is_Some (cols : gset string) (b : slice) (c : string) :
  c ∈ cols → is_Some (resample_bucket cols b !! c).
Proof.
  intros Hc. unfold resample_bucket. eexists.
  apply lookup_set_to_map; [by intros y y' _ _ Hy|]. by exists c.
Qed.

(** X16: in the gap-presence transformer the signal of an entity can always
    be computed when its records have the input column; it has one value per
    bucket of the grid, that is [(last - first_edge) // meandelta + 1] values
    for records from [first] to [last]; an entity whose records all carry
    the same timestamp (a single record, say) has a signal of one value; and
    when the signal is not longer than the window size the entity is
    skipped. *)
Theorem gap_signal_grid_size `{SciLibs} (cfg : config) (T : table) (e : entity)
    (first last : Z) :
  let T0 := setitem_scalar (output_item cfg) (fl 0) T in
  let idx := s_index (reset_index_sort (loc_entity e T0)) in
  let freq := mean_delta idx in
  Forall (λ r, is_Some (r_cols r !! input_item cfg)) (loc_entity e T) →
  head idx = Some first → list.last idx = Some last →
  ∃ dfe temperature,
    gap_signal cfg T0 e = inr (dfe, temperature) ∧
    Z.of_nat (length temperature)
    = (last - resample_first_edge first freq) `div` freq + 1 ∧
    (first = last → length temperature = 1%nat) ∧
    (Z.of_nat (length temperature) ≤ windowsize cfg →
     body_of GapPresence cfg T0 e = inr None).
Proof.
  intros T0 idx freq Hin Hhead Hlast.
  set (s := reset_index_sort (loc_entity e T0)) in *.
  pose proof (reset_index_sort_strongly_sorted (loc_entity e T0)) as Hs.
  fold s in Hs.
  assert (Hf : 0 < freq)
    by (apply mean_delta_pos, reset_index_sort_sorted).
  destruct (resample_apply_spec s freq first last Hs Hf Hhead Hlast)
    as [Hidx Hrows].
  assert (Hfl : first ≤ last).
  { apply (sorted_last_max idx first last);
      [by apply s_index_sorted|done|].
    unfold idx in *. destruct (s_index s); [done|].
    injection Hhead as ->. left. }
  destruct (resample_edges_spec first last freq Hf Hfl)
    as (Hfe & Hle & Hn & Hpos).
  pose proof (resample_last_edge_tight first last freq Hf) as Htight.
  assert (Hcols : input_item cfg ∈ columns s).
  { assert (Hall : Forall (λ r : srow, is_Some (r.2 !! input_item cfg)) s).
    { apply (Forall_reset_index_sort (λ m, is_Some (m !! input_item cfg))).
      unfold T0. rewrite loc_entity_setitem_scalar. apply Forall_fmap.
      eapply Forall_impl; [exact Hin|]. intros r [v Hv]. simpl.
      destruct (decide (output_item cfg = input_item cfg)) as [->|Hne].
      - rewrite lookup_insert_eq. by eexists.
      - rewrite lookup_insert_ne by done. by eexists. }
    unfold idx in Hhead. destruct s as [|r0 s']; [done|].
    apply Forall_cons in Hall as [Hr0 _]. simpl. by apply elem_of_dom. }
  destruct (getcol_ok (input_item cfg) (gap_frame (resample_apply s freq)))
    as (temperature & Hcol & Hlen).
  { unfold gap_frame. apply Forall_fmap, Forall_lookup.
    intros k [label m] Hk. simpl. rewrite lookup_fmap.
    rewrite (Hrows k label m Hk).
    destruct (resample_bucket_is_Some (columns s)
                (spec_bucket s label freq) (input_item cfg) Hcols) as [v ->].
    by eexists. }
  assert (Hsize : length temperature = resample_nbins first last freq).
  { rewrite Hlen. unfold gap_frame. rewrite length_fmap.
    rewrite <- (length_fmap fst). fold (s_index (resample_apply s freq)).
    by rewrite Hidx, length_resample_labels. }
  assert (Hsig : gap_signal cfg T0 e
                 = inr (gap_frame (resample_apply s freq), temperature)).
  { unfold gap_signal. fold s. fold idx. fold freq. by rewrite Hcol. }
  exists (gap_frame (resample_apply s freq)), temperature.
  split; [done|].
  assert (Hformula : Z.of_nat (length temperature)
                     = (last - resample_first_edge first freq) `div` freq + 1).
  { rewrite Hsize.
    rewrite <- (Z.div_unique (last - resample_first_edge first freq) freq
                  (Z.of_nat (resample_nbins first last freq) - 1)
                  (last - resample_first_edge first freq
                   - freq * (Z.of_nat (resample_nbins first last freq) - 1)));
      lia. }
  split; [done|]. split.
  - intros <-. apply Nat2Z.inj. rewrite Hformula.
    rewrite Z.div_small by lia. done.
  - intros Hshort. simpl. unfold NoData_entity. rewrite Hsig.
    cbv [mbind result_bind]. unfold score_entity.
    by rewrite bool_decide_eq_false_2 by lia.
Qed.

Lemma gap_signal_grid_size_witness :
  ∃ dfe temperature,
    gap_signal gap_config (setitem_scalar "score" (fl 0) gap_table_sorted) "E"
      = inr (dfe, temperature) ∧
    Z.of_nat (length temperature) = 4.
Proof.
  destruct (@gap_signal_grid_size exact_libs gap_config gap_table_sorted "E"
              (seconds 0) (seconds 13))
    as (dfe & temperature & Hsig & Hlen & _);
    [apply (bool_decide_unpack _); vm_compute; exact I
    |by_evaluation|by_evaluation|].
  exists dfe, temperature. split; [exact Hsig|].
  rewrite Hlen. by_evaluation.
Defined.
